(** * libsolace: memory views, stream buffers and completion cells

    A shallow embedding of the parts of libsolace that the specification
    talks about: the byte-order helpers of [solace/memoryView.hpp], the
    bounds-checked [MemoryView], the cursor operations of [WriteBuffer] and
    [ByteBuffer], the [Optional] monad, and the selector and promise
    interfaces.

    Fixed-width integers are integers of [Z] with the wrap-around of each
    conversion written out; raw memory is a list of bytes; a call that
    throws in C++ returns [Throw] with the exception here. *)

From Stdlib Require Import ZArith Lia List.
From stdpp Require Import base option list gmap.
From coqutil Require Import Byte.

Local Open Scope Z_scope.

(** ** Part I: the embedding *)

(** *** Fixed-width integer conversions ([solace/types.hpp]) *)

Module Types.

(** [static_cast<uint32>(z)]: reduction modulo [2^32]. *)
Definition uint32_cast (z : Z) : Z := z mod 2 ^ 32.

(** [static_cast<int32>(z)]: two's complement wrap into [[-2^31, 2^31)]. *)
Definition int32_cast (z : Z) : Z := (z + 2 ^ 31) mod 2 ^ 32 - 2 ^ 31.

(** [static_cast<uint64>(z)]: reduction modulo [2^64]. *)
Definition uint64_cast (z : Z) : Z := z mod 2 ^ 64.

Definition is_uint32 (z : Z) : Prop := 0 <= z < 2 ^ 32.
Definition is_int32 (z : Z) : Prop := - 2 ^ 31 <= z < 2 ^ 31.
Definition is_uint64 (z : Z) : Prop := 0 <= z < 2 ^ 64.

End Types.

(** *** Byte-order helpers ([solace/memoryView.hpp], lines 254-335)

    [b] is the array behind the [byte*] argument and [i] the index into it.
    The C++ functions index the raw pointer without any check; an access
    outside the array has no defined behaviour there and is [None] here. *)

Module Endian.
Import Types.

(** [b[i] = v] *)
Definition store (b : list byte) (i : nat) (v : byte) : option (list byte) :=
  if decide (i < length b)%nat then Some (<[i := v]> b) else None.

(** [b[i]] *)
Definition load (b : list byte) (i : nat) : option byte := b !! i.

(** [static_cast<uint32>(x) << k] *)
Definition shl_u32 (x : byte) (k : Z) : Z := uint32_cast (byte.unsigned x ≪ k).

(** [static_cast<int32>(x) << k]: a left shift of a signed value whose
    result does not fit is the shift of the bit pattern, wrapped into the
    signed range. *)
Definition shl_i32 (x : byte) (k : Z) : Z := int32_cast (byte.unsigned x ≪ k).

(** [static_cast<uint64>(x) << k] *)
Definition shl_u64 (x : byte) (k : Z) : Z := uint64_cast (byte.unsigned x ≪ k).

Definition getUint32_BE (b : list byte) (i : nat) : option Z :=
  x0 ← load b i;
  x1 ← load b (i + 1)%nat;
  x2 ← load b (i + 2)%nat;
  x3 ← load b (i + 3)%nat;
  Some (Z.lor (Z.lor (Z.lor (shl_u32 x0 24) (shl_u32 x1 16)) (shl_u32 x2 8))
              (byte.unsigned x3)).

Definition putUint32_BE (n : Z) (b : list byte) (i : nat) : option (list byte) :=
  b ← store b i (byte.of_Z (n ≫ 24));
  b ← store b (i + 1)%nat (byte.of_Z (n ≫ 16));
  b ← store b (i + 2)%nat (byte.of_Z (n ≫ 8));
  store b (i + 3)%nat (byte.of_Z n).

Definition getInt32_LE (b : list byte) (i : nat) : option Z :=
  x0 ← load b i;
  x1 ← load b (i + 1)%nat;
  x2 ← load b (i + 2)%nat;
  x3 ← load b (i + 3)%nat;
  Some (Z.lor (Z.lor (Z.lor (byte.unsigned x0) (shl_i32 x1 8)) (shl_i32 x2 16))
              (shl_i32 x3 24)).

Definition getUint32_LE (b : list byte) (i : nat) : option Z :=
  x0 ← load b i;
  x1 ← load b (i + 1)%nat;
  x2 ← load b (i + 2)%nat;
  x3 ← load b (i + 3)%nat;
  Some (Z.lor (Z.lor (Z.lor (byte.unsigned x0) (shl_u32 x1 8)) (shl_u32 x2 16))
              (shl_u32 x3 24)).

(** [n >> k] on a negative [int32] is the arithmetic shift, as [Z.shiftr]
    is, and [& 0xFF] keeps the low byte of the two's complement pattern, as
    [Z.land] does. *)
Definition putInt32_LE (n : Z) (b : list byte) (i : nat) : option (list byte) :=
  b ← store b i (byte.of_Z (Z.land n 255));
  b ← store b (i + 1)%nat (byte.of_Z (Z.land (n ≫ 8) 255));
  b ← store b (i + 2)%nat (byte.of_Z (Z.land (n ≫ 16) 255));
  store b (i + 3)%nat (byte.of_Z (Z.land (n ≫ 24) 255)).

Definition putUint32_LE (n : Z) (b : list byte) (i : nat) : option (list byte) :=
  b ← store b i (byte.of_Z (Z.land n 255));
  b ← store b (i + 1)%nat (byte.of_Z (Z.land (n ≫ 8) 255));
  b ← store b (i + 2)%nat (byte.of_Z (Z.land (n ≫ 16) 255));
  store b (i + 3)%nat (byte.of_Z (Z.land (n ≫ 24) 255)).

Definition getUint64_LE (b : list byte) (i : nat) : option Z :=
  x0 ← load b i;
  x1 ← load b (i + 1)%nat;
  x2 ← load b (i + 2)%nat;
  x3 ← load b (i + 3)%nat;
  x4 ← load b (i + 4)%nat;
  x5 ← load b (i + 5)%nat;
  x6 ← load b (i + 6)%nat;
  x7 ← load b (i + 7)%nat;
  Some (Z.lor (Z.lor (Z.lor (Z.lor (Z.lor (Z.lor (Z.lor
          (byte.unsigned x0) (shl_u64 x1 8)) (shl_u64 x2 16)) (shl_u64 x3 24))
          (shl_u64 x4 32)) (shl_u64 x5 40)) (shl_u64 x6 48)) (shl_u64 x7 56)).

Definition putUint64_LE (n : Z) (b : list byte) (i : nat) : option (list byte) :=
  b ← store b i (byte.of_Z (Z.land n 255));
  b ← store b (i + 1)%nat (byte.of_Z (Z.land (n ≫ 8) 255));
  b ← store b (i + 2)%nat (byte.of_Z (Z.land (n ≫ 16) 255));
  b ← store b (i + 3)%nat (byte.of_Z (Z.land (n ≫ 24) 255));
  b ← store b (i + 4)%nat (byte.of_Z (Z.land (n ≫ 32) 255));
  b ← store b (i + 5)%nat (byte.of_Z (Z.land (n ≫ 40) 255));
  b ← store b (i + 6)%nat (byte.of_Z (Z.land (n ≫ 48) 255));
  store b (i + 7)%nat (byte.of_Z (Z.land (n ≫ 56) 255)).

End Endian.

Module EndianSpec.

(** The 32-bit value whose four bytes are those of [x] in the opposite
    order. *)
Definition bswap32 (x : Z) : Z :=
  x mod 2 ^ 8 * 2 ^ 24 + (x / 2 ^ 8) mod 2 ^ 8 * 2 ^ 16
  + (x / 2 ^ 16) mod 2 ^ 8 * 2 ^ 8 + (x / 2 ^ 24) mod 2 ^ 8.

End EndianSpec.

(** *** Exceptions ([solace/exception.hpp]) and checked results

    A C++ call that throws returns [Throw e]; side effects made before the
    throw stay, so stateful calls return the checked result next to the
    state. *)

Module Exception.

Inductive t : Set :=
| IllegalArgumentException
| IndexOutOfRangeException
| InvalidStateException.

Inductive Checked (A : Type) : Type :=
| Ok (a : A)
| Throw (e : t).

Arguments Ok {A} a.
Arguments Throw {A} e.

Definition isOk {A} (r : Checked A) : bool :=
  match r with Ok _ => true | Throw _ => false end.

#[global] Instance checked_ret : MRet Checked := λ A a, Ok a.
#[global] Instance checked_bind : MBind Checked := λ A B f r,
  match r with Ok a => f a | Throw e => Throw e end.

(** Modelled from the spec: [assertIndexInRange(index, from, to)] of
    [solace/assert.hpp], which the header of MemoryView calls and which is not
    among the sources.  The spec has every offset "checked against
    [0, length)" and failing "out-of-range if offset >= size": the check
    passes, returning the index, when [from <= index < to], and raises the
    out-of-range exception otherwise. *)
Definition assertIndexInRange (index from to : Z) : Checked Z :=
  if decide (from <= index < to) then Ok index else Throw IndexOutOfRangeException.

End Exception.

(** *** MemoryView ([solace/memoryView.hpp])

    A view is an address (0 is [nullptr]) and a length.  The base class
    ImmutableMemoryView and the out-of-line members of [memoryView.cpp] are
    not among the sources; what is needed of them is modelled from the spec
    and marked as such. *)

Module MemoryView.
Import Exception.

Record t : Set := wrapMemory_unchecked { dataAddress : Z; size : Z }.

(** [MemoryView()]: the empty view. *)
Definition empty : t := {| dataAddress := 0; size := 0 |}.

(** Modelled from the spec: the wrapping constructor of ImmutableMemoryView,
    reached through [MemoryView(void*, size_type)] and [wrapMemory].  "fails
    with an invalid-argument condition if address is null and size > 0 (a
    null/zero view is valid and empty)". *)
Definition wrapMemory (data dataSize : Z) : Checked t :=
  if decide (data = 0 /\ dataSize > 0) then Throw IllegalArgumentException
  else Ok {| dataAddress := data; size := dataSize |}.

(** Modelled from the spec: the move constructor of ImmutableMemoryView, which
    the defaulted [MemoryView(MemoryView&&)] runs.  "moving a view zeroes out
    the source's address/length".  The result is the pair of the new view and
    the source as it is left. *)
Definition ImmutableMemoryView_move (rhs : t) : t * t := (rhs, empty).

(** Modelled from the spec: [ImmutableMemoryView::swap], which
    [MemoryView::swap] calls.  The spec has no sentence on it; it is the
    exchange of the address and the length of the two views that its name
    says, as [WriteBuffer::swap] in the sources exchanges the fields of two
    buffers.  The result is the pair of [*this] and [rhs] after the call. *)
Definition ImmutableMemoryView_swap (this rhs : t) : t * t := (rhs, this).

(** [MemoryView(MemoryView&& rhs) noexcept = default] *)
Definition move_construct (rhs : t) : t * t := ImmutableMemoryView_move rhs.

(** [MemoryView& swap(MemoryView& rhs) noexcept] *)
Definition swap (this rhs : t) : t * t := ImmutableMemoryView_swap this rhs.

(** [MemoryView& operator= (MemoryView&& rhs) noexcept { return swap(rhs); }] *)
Definition move_assign (this rhs : t) : t * t := swap this rhs.

(** A move, given by the destination and the source as it leaves them, that
    hands over the view [rhs] and zeroes its source. *)
Definition source_zeroed (move : t * t) (rhs : t) : Prop :=
  fst move = rhs /\ dataAddress (snd move) = 0 /\ size (snd move) = 0.

Section SizeType.

(** The width in bits of [size_type]; its declaration is in the absent base
    class, so the width is a parameter. *)
Variable size_bits : Z.

(** Conversion to [size_type]. *)
Definition size_cast (z : Z) : Z := z mod 2 ^ size_bits.

Definition is_size (z : Z) : Prop := 0 <= z < 2 ^ size_bits.

(** [template <typename T> T* dataAs(size_type offset = 0)]; [sizeofT] is
    [sizeof(T)] and the result is the address [dataAddress() + offset]. *)
Definition dataAs (sizeofT : Z) (v : t) (offset : Z) : Checked Z :=
  _ ← assertIndexInRange offset 0 (size v);
  _ ← assertIndexInRange (size_cast (offset + sizeofT)) offset (size_cast (size v + 1));
  Ok (dataAddress v + offset).

(** [template<typename T, typename... Args> T* construct(Args&&... args)].
    The placement new runs the constructor of [T], whose effect on the rest of
    the program (the object itself, instance counters and the like) is the
    state transformer [ctor] on a state [W]. *)
Definition construct {W : Type} (sizeofT : Z) (ctor : Z -> W -> W) (v : t) (w : W)
  : Checked Z * W :=
  match assertIndexInRange (size_cast sizeofT) (size_cast 0) (size_cast (size v + 1)) with
  | Ok _ => (Ok (dataAddress v), ctor (dataAddress v) w)
  | Throw e => (Throw e, w)
  end.

(** [template<typename T> void destruct(T* t)] runs the destructor. *)
Definition destruct_ {W : Type} (dtor : Z -> W -> W) (p : Z) (w : W) : W := dtor p w.

End SizeType.

(** Modelled from the spec: [MemoryView::slice(from, to)], defined in
    [memoryView.cpp].  "returns a sub-view; fails with an out-of-range
    condition if from > to, to > size, or from > size; a slice where
    from == to yields a valid empty view rather than an error". *)
Definition slice (v : t) (from to : Z) : Checked t :=
  if decide (from > to \/ to > size v \/ from > size v)
  then Throw IndexOutOfRangeException
  else Ok {| dataAddress := dataAddress v + from; size := to - from |}.

(** The bytes a view refers to live in a memory that the view does not own:
    a list of bytes indexed by address. *)
Abbreviation Memory := (list byte).

(** The loop of [fill]: [count] bytes from address [a] on are set to [value]. *)
Fixpoint fill_bytes (value : byte) (a : nat) (count : nat) (mem : Memory) : Memory :=
  match count with
  | O => mem
  | S count' => fill_bytes value (S a) count' (<[a := value]> mem)
  end.

(** Modelled from the spec: [MemoryView::fill(value, from, to)], defined in
    [memoryView.cpp].  "validates from <= to <= size; out-of-range parameters
    fail out-of-range, leaving memory unmodified".  On valid parameters the
    bytes of the view at offsets [[from, to)] are set to [value]. *)
Definition fill (v : t) (value : byte) (from to : Z) (mem : Memory) : Checked t * Memory :=
  if decide (from <= to /\ to <= size v /\ from <= size v)
  then (Ok v, fill_bytes value (Z.to_nat (dataAddress v + from)) (Z.to_nat (to - from)) mem)
  else (Throw IndexOutOfRangeException, mem).

End MemoryView.

(** *** Buffers ([solace/writeBuffer.hpp], [solace/byteBuffer.hpp]) *)

Module MemoryBuffer.

(** Modelled from the spec: the storage type [MemoryBuffer] of
    [solace/memoryBuffer.hpp], which both buffers hold and which is not among
    the sources.  "A Buffer exclusively owns its storage if constructed from
    an owned block, or borrows it (non-owning) if constructed from a view":
    a view and the flag of whether the block behind it is owned. *)
Record t : Set := { view : MemoryView.t; owned : bool }.

Definition size (m : t) : Z := MemoryView.size (view m).

End MemoryBuffer.

Module WriteBuffer.

Record t : Set := { _position : Z; _limit : Z; _storage : MemoryBuffer.t }.

(** [WriteBuffer(MemoryView memView)] *)
Definition of_view (memView : MemoryView.t) : t :=
  {| _position := 0;
     _limit := MemoryView.size memView;
     _storage := {| MemoryBuffer.view := memView; MemoryBuffer.owned := false |} |}.

Definition capacity (b : t) : Z := MemoryBuffer.size (_storage b).
Definition limit (b : t) : Z := _limit b.
Definition position (b : t) : Z := _position b.

Definition rewind (b : t) : t :=
  {| _position := 0; _limit := _limit b; _storage := _storage b |}.

Definition clear (b : t) : t :=
  {| _position := 0; _limit := capacity b; _storage := _storage b |}.

Definition flip (b : t) : t :=
  {| _position := 0; _limit := _position b; _storage := _storage b |}.

(** [WriteBuffer(MemoryBuffer& buffer)]: the storage refers to the view of
    the buffer, with no disposer. *)
Definition of_buffer_ref (buffer : MemoryBuffer.t) : t :=
  {| _position := 0;
     _limit := MemoryBuffer.size buffer;
     _storage := {| MemoryBuffer.view := MemoryBuffer.view buffer;
                    MemoryBuffer.owned := false |} |}.

(** [WriteBuffer(MemoryBuffer&& buffer)]: the storage is the buffer itself. *)
Definition of_buffer (buffer : MemoryBuffer.t) : t :=
  {| _position := 0; _limit := MemoryBuffer.size buffer; _storage := buffer |}.

(** [WriteBuffer& swap(WriteBuffer& rhs) noexcept]: the pair of [*this] and
    [rhs] after the three swaps. *)
Definition swap (this rhs : t) : t * t :=
  ({| _position := _position rhs; _limit := _limit rhs; _storage := _storage rhs |},
   {| _position := _position this; _limit := _limit this; _storage := _storage this |}).

(** [WriteBuffer& operator= (WriteBuffer&& rhs) noexcept { return swap(rhs); }] *)
Definition move_assign (this rhs : t) : t * t := swap this rhs.

(** [size_type remaining() const noexcept { return limit() - position(); }],
    a subtraction of [size_type], of [size_bits] bits. *)
Definition remaining (size_bits : Z) (b : t) : Z :=
  MemoryView.size_cast size_bits (limit b - position b).

(** [bool hasRemaining() const noexcept { return remaining() > 0; }] *)
Definition hasRemaining (size_bits : Z) (b : t) : bool :=
  bool_decide (remaining size_bits b > 0).

(** [MemoryView viewRemaining() { return _storage.view().slice(position(), limit()); }] *)
Definition viewRemaining (b : t) : Exception.Checked MemoryView.t :=
  MemoryView.slice (MemoryBuffer.view (_storage b)) (position b) (limit b).

(** [MemoryView viewWritten() { return _storage.view().slice(0, position()); }] *)
Definition viewWritten (b : t) : Exception.Checked MemoryView.t :=
  MemoryView.slice (MemoryBuffer.view (_storage b)) 0 (position b).

(** The three cursor operations that take no argument and cannot fail, and a
    run of them, each applied to the buffer the one before left. *)
Inductive Op : Set := Rewind | Clear | Flip.

Definition apply_op (b : t) (op : Op) : t :=
  match op with
  | Rewind => rewind b
  | Clear => clear b
  | Flip => flip b
  end.

Definition run_ops (ops : list Op) (b : t) : t := fold_left apply_op ops b.

End WriteBuffer.

Module ReadBuffer.

(** Modelled from the spec: the base class [ReadBuffer] of
    [solace/readBuffer.hpp], which is not among the sources and from which
    ByteBuffer inherits [_position], [_limit], the storage, [capacity] and
    [rewind].  "attributes: storage, position, limit (<= capacity), capacity
    (fixed size of storage)". *)
Record t : Set := { _position : Z; _limit : Z; _storage : MemoryBuffer.t }.

Definition capacity (b : t) : Z := MemoryBuffer.size (_storage b).
Definition limit (b : t) : Z := _limit b.
Definition position (b : t) : Z := _position b.

(** Modelled from the spec: [ReadBuffer::rewind], "rewind (position=0, limit
    unchanged)". *)
Definition rewind (b : t) : t :=
  {| _position := 0; _limit := _limit b; _storage := _storage b |}.

End ReadBuffer.

Module ByteBuffer.

(** [class ByteBuffer : public ReadBuffer] adds no field. *)
Abbreviation t := ReadBuffer.t.

Definition capacity (b : t) : Z := ReadBuffer.capacity b.
Definition limit (b : t) : Z := ReadBuffer.limit b.
Definition position (b : t) : Z := ReadBuffer.position b.

Definition clear (b : t) : t :=
  {| ReadBuffer._position := 0;
     ReadBuffer._limit := capacity b;
     ReadBuffer._storage := ReadBuffer._storage b |}.

Definition flip (b : t) : t :=
  {| ReadBuffer._position := 0;
     ReadBuffer._limit := ReadBuffer._position b;
     ReadBuffer._storage := ReadBuffer._storage b |}.

Definition rewind (b : t) : t := ReadBuffer.rewind b.

End ByteBuffer.

Module Cursor.

(** The cursor invariant and the laws of the lifecycle operations, for a
    buffer type given by its accessors and operations. *)
Definition cursor_inv {B : Type} (position limit capacity : B -> Z) (b : B) : Prop :=
  0 <= position b /\ position b <= limit b /\ limit b <= capacity b.

Definition lifecycle_laws {B : Type} (position limit capacity : B -> Z)
    (clear flip rewind : B -> B) (b : B) : Prop :=
  let inv := cursor_inv position limit capacity in
  (position (clear b) = 0 /\ limit (clear b) = capacity b
   /\ capacity (clear b) = capacity b /\ inv (clear b)) /\
  (limit (flip b) = position b /\ position (flip b) = 0
   /\ capacity (flip b) = capacity b /\ inv (flip b)) /\
  (position (rewind b) = 0 /\ limit (rewind b) = limit b
   /\ capacity (rewind b) = capacity b /\ inv (rewind b)) /\
  clear (clear b) = clear b /\
  (forall n : nat, position b = 0 -> limit (Nat.iter (S n) flip b) = 0).

End Cursor.

(** *** Optional ([solace/optional.hpp])

    The flag [_engaged] and the union of the payload with the empty type are
    the two constructors.  The functions given to [map] and [flatMap] are C++
    callables and may have effects: a callable is a function of the state of
    the rest of the program, of any type [S], to its result and the new
    state. *)

Module Optional.
Import Exception.

Inductive t (T : Type) : Type :=
| none
| some (_payload : T).

Arguments none {T}.
Arguments some {T} _payload.

Definition isSome {T} (o : t T) : bool :=
  match o with some _ => true | none => false end.

Definition isNone {T} (o : t T) : bool := negb (isSome o).

Definition get {T} (o : t T) : Checked T :=
  match o with
  | none => Throw InvalidStateException
  | some x => Ok x
  end.

Definition orElse {T} (o : t T) (d : T) : T :=
  match o with
  | none => d
  | some x => x
  end.

(** A callable with effects on a state [S]. *)
Definition Callable (S A B : Type) : Type := A -> S -> B * S.

(** A callable that takes its argument by reference ([F(T&)]) and may assign
    to it: next to its result it returns the value its argument is left
    with. *)
Definition RefCallable (S A B : Type) : Type := A -> S -> (B * A) * S.

(** [Optional<U> map(F&& f)]:
    [return (isSome()) ? Optional<U>(f(_payload)) : none;]
    with [f] taking [_payload] by reference.  The result is the mapped
    Optional next to [*this] as the call leaves it. *)
Definition map {S T U} (f : RefCallable S T U) (o : t T) (s : S) : (t U * t T) * S :=
  match o with
  | some x => let '((u, x'), s') := f x s in ((some u, some x'), s')
  | none => ((none, none), s)
  end.

(** [Optional<U> map(F&& f) const]:
    [return (isSome()) ? Optional<U>(f(_payload)) : none;] *)
Definition map_const {S T U} (f : Callable S T U) (o : t T) (s : S) : t U * S :=
  match o with
  | some x => let (u, s') := f x s in (some u, s')
  | none => (none, s)
  end.

(** [Optional<U> flatMap(std::function<Optional<U> (T const&)> const& f) const]:
    [return (isSome()) ? f(_payload) : none;] *)
Definition flatMap {S T U} (f : Callable S T (t U)) (o : t T) (s : S) : t U * S :=
  match o with
  | some x => f x s
  | none => (none, s)
  end.

(** A callable that records each of its invocations: the argument is put at
    the end of a log that is part of the state. *)
Definition logged {S A B} (f : Callable S A B) : Callable (list A * S) A B :=
  λ x st, let (u, s') := f x (snd st) in (u, (fst st ++ [x], s')).

Definition logged_ref {S A B} (f : RefCallable S A B) : RefCallable (list A * S) A B :=
  λ x st, let (r, s') := f x (snd st) in (r, (fst st ++ [x], s')).

(** [constexpr void destroy()]: an engaged Optional is disengaged and its
    payload destructed; a disengaged one is left as it is. *)
Definition destroy {T} (o : t T) : t T :=
  match o with
  | some _ => none
  | none => none
  end.

(** [constexpr bool construct(T&& t)]: the payload is constructed from [x] and
    the flag is set. *)
Definition construct {T} (x : T) (o : t T) : t T := some x.

(** [Optional<T>& swap(Optional<T>& rhs) noexcept], with its four cases; the
    result is the pair of [*this] and [rhs] after the call. *)
Definition swap {T} (this rhs : t T) : t T * t T :=
  match this with
  | some x =>
      match rhs with
      | none => let rhs' := construct x rhs in (destroy this, rhs')
      | some y => (some y, some x)
      end
  | none =>
      match rhs with
      | none => (this, rhs)
      | some y => let this' := construct y this in (this', destroy rhs)
      end
  end.

(** [Optional<T>& operator= (None) noexcept] *)
Definition assign_none {T} (this : t T) : t T := destroy this.

(** [Optional<T>& operator= (Optional<T>&& rhs)] is [return swap(rhs);]. *)
Definition move_assign {T} (this rhs : t T) : t T * t T := swap this rhs.

(** [Optional<T>& operator= (T&& rhs)]: [destroy(); construct(std::move(rhs));] *)
Definition assign_value {T} (x : T) (this : t T) : t T := construct x (destroy this).

(** [const Optional<T>& filter(F&& predicate) const]:
    [(isSome()) ? (predicate(_payload) ? *this : _emptyInstance) : _emptyInstance] *)
Definition filter {S T} (predicate : Callable S T bool) (o : t T) (s : S) : t T * S :=
  match o with
  | some x => let (keep, s') := predicate x s in ((if keep then o else none), s')
  | none => (none, s)
  end.

(** A function without effects, as a callable. *)
Definition pure {S A B} (h : A -> B) : Callable S A B := λ x s, (h x, s).

(** [bool operator== (Optional<T> const& a, None)] and its mirror image. *)
Definition equals_none {T} (a : t T) : bool := isNone a.

(** [bool operator== (Optional<T> const& a, Optional<T> const& b)].  [eqT] is
    the [operator==] of [T]; [same_object] is the outcome of [&a == &b],
    which can only hold for one object compared with itself. *)
Definition equals {T} (eqT : T -> T -> bool) (same_object : bool) (a b : t T) : bool :=
  if same_object then true
  else if isNone a && isNone b then true
  else if isSome a && isSome b then
    match get a, get b with
    | Exception.Ok x, Exception.Ok y => eqT x y
    | _, _ => false
    end
  else false.

End Optional.

(** *** Selector ([solace/io/selector.hpp])

    The selector is not among the sources; only its test is.  The whole
    module is modelled from the spec. *)

Module Selector.
Import Exception.

(** Modelled from the spec: the readiness and interest masks, "interest mask
    (read/write/error)". *)
Record Mask : Set := { read : bool; write : bool; error : bool }.

Definition Read : Mask := {| read := true; write := false; error := false |}.
Definition Write : Mask := {| read := false; write := true; error := false |}.

Definition intersects (a b : Mask) : bool :=
  (read a && read b) || (write a && write b) || (error a && error b).

Definition inter (a b : Mask) : Mask :=
  {| read := read a && read b; write := write a && write b;
     error := error a && error b |}.

(** Modelled from the spec: "Selector registration - attributes: pollable
    handle identifier, interest mask, opaque user tag.  Invariant: at most one
    registration per handle per Selector instance": a finite map from handle
    identifiers to the interest and the tag. *)
Record Registration : Set := { interest : Mask; data : Z }.

Record t : Type := { maxEvents : nat; registrations : gmap Z Registration }.

(** Modelled from the spec: "createPoll(maxEvents) constructs a Selector with
    a hinted event-buffer capacity". *)
Definition createPoll (n : nat) : t := {| maxEvents := n; registrations := ∅ |}.

(** Modelled from the spec: "add(handle, interestMask) registers or updates
    interest", "re-adding replaces prior interest". *)
Definition add (s : t) (handle : Z) (events : Mask) (tag : Z) : t :=
  {| maxEvents := maxEvents s;
     registrations := <[handle := {| interest := events; data := tag |}]> (registrations s) |}.

(** Modelled from the spec: "remove(handle) deregisters, and removing a
    never-added handle succeeds silently". *)
Definition remove (s : t) (handle : Z) : t :=
  {| maxEvents := maxEvents s; registrations := delete handle (registrations s) |}.

(** Modelled from the spec: a ready event "{handle, readinessMask}". *)
Record Event : Set := { fd : Z; events : Mask }.

(** Modelled from the spec: the "finite, forward-only sequence of ready
    events" that [poll] returns: the events and the position in them. *)
Record Iterator : Set := { ready : list Event; index : nat }.

Definition end_ (i : Iterator) : Iterator :=
  {| ready := ready i; index := length (ready i) |}.

(** [operator!=] on positions of one sequence. *)
Definition neq (a b : Iterator) : bool := negb (Nat.eqb (index a) (index b)).

(** [operator*] *)
Definition deref (i : Iterator) : Checked Event :=
  match ready i !! index i with
  | Some ev => Ok ev
  | None => Throw IndexOutOfRangeException
  end.

(** Modelled from the spec: [operator++], "Advancing the sequence past its
    end fails with an out-of-range condition". *)
Definition next (i : Iterator) : Checked Iterator :=
  if decide (index i < length (ready i))%nat
  then Ok {| ready := ready i; index := S (index i) |}
  else Throw IndexOutOfRangeException.

(** The event, if any, that a registration gives when the kernel reports the
    readiness [now] for its handle. *)
Definition event_of (now : Z -> Mask) (r : Z * Registration) : option Event :=
  if intersects (interest r.2) (now r.1)
  then Some {| fd := r.1; events := inter (interest r.2) (now r.1) |}
  else None.

(** Modelled from the spec: "poll(timeoutMillis) ... returns a ... sequence of
    ready events; the sequence is exhausted (begin() == end()) on timeout with
    no ready handles".  The wait itself is outside the model: [now] is the
    readiness of each handle that the kernel reports when the call returns,
    and the call returns the registered handles that are ready for what they
    were registered for. *)
Definition poll (s : t) (timeoutMillis : Z) (now : Z -> Mask) : Iterator :=
  {| ready := omap (event_of now) (map_to_list (registrations s)); index := 0 |}.

End Selector.

(** *** Future and Promise ([solace/io/async/future.hpp])

    The header is not among the sources; the module is modelled from the
    spec. *)

Module Async.
Import Exception.

(** Modelled from the spec: "shared completion cell with states {Pending,
    Resolved(value), Failed(error)}". *)
Inductive State (T E : Type) : Type :=
| Pending
| Resolved (value : T)
| Failed (error : E).

Arguments Pending {T E}.
Arguments Resolved {T E} value.
Arguments Failed {T E} error.

(** Modelled from the spec: the cell that the Promise and the Futures
    share.  "Multiple continuations may be attached while Pending; all are
    invoked, in attachment order, at the moment of transition (or
    immediately if already settled)".  A continuation is a callback on the
    settled state with effects on the rest of the program, of state [W]. *)
Record Cell (T E W : Type) : Type :=
  { state : State T E; continuations : list (State T E -> W -> W) }.

Arguments state {T E W} c.
Arguments continuations {T E W} c.

Definition newCell {T E W : Type} : Cell T E W :=
  {| state := Pending; continuations := [] |}.

(** The continuations run in the order in which they were attached. *)
Definition fire {T E W : Type} (st : State T E) (ks : list (State T E -> W -> W)) (w : W) : W :=
  fold_left (λ w k, k st w) ks w.

(** The one transition out of Pending, shared by [resolve] and [fail]. *)
Definition settle {T E W : Type} (st : State T E) (c : Cell T E W) (w : W)
  : Checked unit * (Cell T E W * W) :=
  match state c with
  | Pending => (Ok tt, ({| state := st; continuations := [] |}, fire st (continuations c) w))
  | _ => (Throw InvalidStateException, (c, w))
  end.

(** Modelled from the spec: "Promise<T>::resolve(value) / ::fail(error)
    perform the single allowed state transition; calling either a second time
    fails with an invalid-state condition". *)
Definition resolve {T E W : Type} (value : T) (c : Cell T E W) (w : W) :=
  settle (Resolved value) c w.

Definition fail {T E W : Type} (error : E) (c : Cell T E W) (w : W) :=
  settle (Failed error) c w.

(** Modelled from the spec: "Future<T>::then(continuation) attaches a
    callback invoked with the settled value or error; if the Future is already
    settled, the continuation runs synchronously before then returns -
    otherwise it is queued". *)
Definition then_ {T E W : Type} (k : State T E -> W -> W) (c : Cell T E W) (w : W)
  : Cell T E W * W :=
  match state c with
  | Pending => ({| state := Pending; continuations := continuations c ++ [k] |}, w)
  | st => (c, k st w)
  end.

(** A call on the Promise side. *)
Inductive Call (T E : Type) : Type :=
| Resolve (value : T)
| Fail (error : E).

Arguments Resolve {T E} value.
Arguments Fail {T E} error.

Definition outcome {T E : Type} (call : Call T E) : State T E :=
  match call with
  | Resolve v => Resolved v
  | Fail e => Failed e
  end.

Definition call_promise {T E W : Type} (call : Call T E) (c : Cell T E W) (w : W) :=
  match call with
  | Resolve v => resolve v c w
  | Fail e => fail e c w
  end.

(** A sequence of calls on one Promise, with the result of each. *)
Fixpoint run {T E W : Type} (calls : list (Call T E)) (c : Cell T E W) (w : W)
  : list (Checked unit) * (Cell T E W * W) :=
  match calls with
  | [] => ([], (c, w))
  | call :: calls' =>
      let '(r, (c', w')) := call_promise call c w in
      let '(rs, final) := run calls' c' w' in
      (r :: rs, final)
  end.

End Async.

(** ** Part II: properties *)

Section EndianFacts.
Import Types Endian.

Lemma store_in_range (b : list byte) (i : nat) (v : byte) :
  (i < length b)%nat -> store b i v = Some (<[i := v]> b).
Proof.
  intros Hi. unfold store. case_decide; [reflexivity | lia].
Qed.

(** Four consecutive stores overwrite the window [[i, i+4)] and nothing else. *)
Lemma insert4_window (b : list byte) (i : nat) (x0 x1 x2 x3 : byte) :
  (i + 4 <= length b)%nat ->
  <[(i + 3)%nat := x3]> (<[(i + 2)%nat := x2]> (<[(i + 1)%nat := x1]> (<[i := x0]> b)))
  = take i b ++ [x0; x1; x2; x3] ++ drop (i + 4) b.
Proof.
  revert b. induction i as [|i IH]; intros b Hlen.
  - destruct b as [|a0 [|a1 [|a2 [|a3 r]]]]; simpl in *; try lia. reflexivity.
  - destruct b as [|a b]; simpl in *; [lia|].
    f_equal. apply IH. lia.
Qed.

Lemma store4_window (b : list byte) (i : nat) (x0 x1 x2 x3 : byte) :
  (i + 4 <= length b)%nat ->
  (b ← store b i x0; b ← store b (i + 1)%nat x1; b ← store b (i + 2)%nat x2;
   store b (i + 3)%nat x3)
  = Some (take i b ++ [x0; x1; x2; x3] ++ drop (i + 4) b).
Proof.
  intros Hlen.
  rewrite store_in_range by lia. simpl.
  rewrite store_in_range by (rewrite length_insert; lia). simpl.
  rewrite store_in_range by (rewrite !length_insert; lia). simpl.
  rewrite store_in_range by (rewrite !length_insert; lia).
  f_equal. apply insert4_window. exact Hlen.
Qed.

Lemma window_lookup (b : list byte) (i k : nat) (xs : list byte) (r : list byte) :
  (i <= length b)%nat ->
  (take i b ++ xs ++ r) !! (i + k)%nat = (xs ++ r) !! k.
Proof.
  intros Hi. rewrite lookup_app_r by (rewrite length_take; lia).
  rewrite length_take. f_equal. lia.
Qed.

(** [hi * 2^k] and a value below [2^k] have no bit in common, so their
    bitwise or is their sum. *)
Lemma lor_disjoint (hi lo k : Z) :
  0 <= k -> 0 <= lo < 2 ^ k -> Z.lor (hi * 2 ^ k) lo = hi * 2 ^ k + lo.
Proof.
  intros Hk Hlo.
  assert (Hand : Z.land (hi * 2 ^ k) lo = 0).
  { apply Z.bits_inj'. intros n Hn. rewrite Z.land_spec, Z.bits_0.
    destruct (Z.lt_ge_cases n k) as [Hlt | Hge].
    - rewrite Z.mul_pow2_bits_low by lia. reflexivity.
    - rewrite <- (Z.mod_small lo (2 ^ k)) by lia.
      rewrite Z.mod_pow2_bits_high by lia. apply andb_false_r. }
  rewrite <- Z.lxor_lor by exact Hand.
  symmetry. apply Z.add_nocarry_lxor. exact Hand.
Qed.

Lemma lor_disjoint_l (hi lo k : Z) :
  0 <= k -> 0 <= lo < 2 ^ k -> Z.lor lo (hi * 2 ^ k) = lo + hi * 2 ^ k.
Proof.
  intros Hk Hlo. rewrite Z.lor_comm, lor_disjoint by assumption. lia.
Qed.

Lemma load4_window (b r : list byte) (i : nat) (x0 x1 x2 x3 : byte) :
  (i <= length b)%nat ->
  let b' := take i b ++ [x0; x1; x2; x3] ++ r in
  load b' i = Some x0 /\ load b' (i + 1)%nat = Some x1 /\
  load b' (i + 2)%nat = Some x2 /\ load b' (i + 3)%nat = Some x3.
Proof.
  intros Hi b'. unfold load, b'.
  pose proof (window_lookup b i 0 [x0; x1; x2; x3] r Hi) as H0.
  rewrite Nat.add_0_r in H0.
  rewrite H0, !window_lookup by exact Hi. simpl. auto.
Qed.

(** The base-256 digits of a 32-bit pattern. *)
Lemma digits32 (n : Z) :
  0 <= n < 2 ^ 32 ->
  n = n mod 2 ^ 8 + (n / 2 ^ 8) mod 2 ^ 8 * 2 ^ 8
      + (n / 2 ^ 16) mod 2 ^ 8 * 2 ^ 16 + (n / 2 ^ 24) mod 2 ^ 8 * 2 ^ 24.
Proof.
  intros Hn.
  change (2 ^ 8) with 256; change (2 ^ 16) with 65536; change (2 ^ 24) with 16777216.
  change (2 ^ 32) with 4294967296 in Hn.
  Z.div_mod_to_equations. lia.
Qed.

Lemma byte_of_Z_eq (x y : Z) : x mod 2 ^ 8 = y mod 2 ^ 8 -> byte.of_Z x = byte.of_Z y.
Proof.
  intros H. apply byte.unsigned_inj. rewrite !byte.unsigned_of_Z. exact H.
Qed.

Lemma byte_shiftr_digit (n k : Z) :
  0 <= k -> byte.of_Z (n ≫ k) = byte.of_Z ((n / 2 ^ k) mod 2 ^ 8).
Proof.
  intros Hk. apply byte_of_Z_eq.
  rewrite Z.shiftr_div_pow2 by exact Hk. symmetry. apply Z.mod_mod. lia.
Qed.

Lemma byte_mask_digit (n k : Z) :
  0 <= k -> byte.of_Z (Z.land (n ≫ k) 255) = byte.of_Z ((n / 2 ^ k) mod 2 ^ 8).
Proof.
  intros Hk. apply byte_of_Z_eq.
  change 255 with (Z.ones 8). rewrite Z.land_ones by lia.
  rewrite Z.shiftr_div_pow2 by exact Hk. reflexivity.
Qed.

Lemma putUint32_LE_window (n : Z) (b : list byte) (i : nat) :
  (i + 4 <= length b)%nat ->
  putUint32_LE n b i =
  Some (take i b ++ [byte.of_Z (n mod 2 ^ 8); byte.of_Z ((n / 2 ^ 8) mod 2 ^ 8);
                     byte.of_Z ((n / 2 ^ 16) mod 2 ^ 8); byte.of_Z ((n / 2 ^ 24) mod 2 ^ 8)]
        ++ drop (i + 4) b).
Proof.
  intros Hlen. unfold putUint32_LE. rewrite store4_window by exact Hlen.
  rewrite <- (Z.shiftr_0_r n) at 1.
  rewrite !byte_mask_digit by lia.
  change (2 ^ 0) with 1. rewrite Z.div_1_r. reflexivity.
Qed.

Lemma putUint32_BE_window (n : Z) (b : list byte) (i : nat) :
  (i + 4 <= length b)%nat ->
  putUint32_BE n b i =
  Some (take i b ++ [byte.of_Z ((n / 2 ^ 24) mod 2 ^ 8); byte.of_Z ((n / 2 ^ 16) mod 2 ^ 8);
                     byte.of_Z ((n / 2 ^ 8) mod 2 ^ 8); byte.of_Z (n mod 2 ^ 8)]
        ++ drop (i + 4) b).
Proof.
  intros Hlen. unfold putUint32_BE. rewrite store4_window by exact Hlen.
  rewrite !byte_shiftr_digit by lia.
  rewrite (byte_of_Z_eq n (n mod 2 ^ 8)) by (symmetry; apply Z.mod_mod; lia).
  reflexivity.
Qed.

(** C3: putUint32_LE stores the base-256 digits of [n] from the least
    significant one at [b[i]] up to the most significant one at [b[i+3]];
    putUint32_BE stores them in the opposite order; nothing outside
    [b[i..i+3]] changes.  At [n = 0x01020304] the stored bytes are
    [04 03 02 01] and [01 02 03 04]. *)
Theorem putUint32_byte_order (n : Z) (b : list byte) (i : nat) :
  is_uint32 n -> (i + 4 <= length b)%nat ->
  let d k := (n / 2 ^ (8 * k)) mod 2 ^ 8 in
  n = d 0 + d 1 * 2 ^ 8 + d 2 * 2 ^ 16 + d 3 * 2 ^ 24 /\
  putUint32_LE n b i =
    Some (take i b ++ (byte.of_Z <$> [d 0; d 1; d 2; d 3]) ++ drop (i + 4) b) /\
  putUint32_BE n b i =
    Some (take i b ++ (byte.of_Z <$> [d 3; d 2; d 1; d 0]) ++ drop (i + 4) b).
Proof.
  intros Hn Hlen d. subst d. cbv beta.
  change (8 * 0) with 0; change (8 * 1) with 8; change (8 * 2) with 16;
    change (8 * 3) with 24.
  change (2 ^ 0) with 1. rewrite Z.div_1_r.
  split; [apply digits32; exact Hn |].
  split; [apply putUint32_LE_window | apply putUint32_BE_window]; exact Hlen.
Qed.

Lemma putUint32_byte_order_witness :
  putUint32_LE 0x01020304 [Byte.xff; Byte.xff; Byte.xff; Byte.xff; Byte.xff; Byte.xff] 1
    = Some [Byte.xff; Byte.x04; Byte.x03; Byte.x02; Byte.x01; Byte.xff] /\
  putUint32_BE 0x01020304 [Byte.xff; Byte.xff; Byte.xff; Byte.xff; Byte.xff; Byte.xff] 1
    = Some [Byte.xff; Byte.x01; Byte.x02; Byte.x03; Byte.x04; Byte.xff].
Proof.
  assert (Hn : is_uint32 0x01020304) by (unfold is_uint32; lia).
  assert (Hlen : (1 + 4 <= length [Byte.xff; Byte.xff; Byte.xff; Byte.xff; Byte.xff; Byte.xff])%nat)
    by (simpl; lia).
  destruct (putUint32_byte_order 0x01020304
              [Byte.xff; Byte.xff; Byte.xff; Byte.xff; Byte.xff; Byte.xff] 1 Hn Hlen)
    as (_ & HLE & HBE).
  split; [exact HLE | exact HBE].
Defined.

Lemma unsigned_digit (z : Z) : byte.unsigned (byte.of_Z (z mod 2 ^ 8)) = z mod 2 ^ 8.
Proof.
  rewrite byte.unsigned_of_Z. unfold byte.wrap. apply Z.mod_mod. lia.
Qed.

Lemma digit_range (z : Z) : 0 <= z mod 2 ^ 8 < 256.
Proof. change 256 with (2 ^ 8). apply Z.mod_pos_bound. lia. Qed.

(** Little-endian recombination of three low digits and a high part. *)
Lemma lor_chain_LE (e0 e1 e2 h : Z) :
  0 <= e0 < 256 -> 0 <= e1 < 256 -> 0 <= e2 < 256 ->
  Z.lor (Z.lor (Z.lor e0 (e1 * 2 ^ 8)) (e2 * 2 ^ 16)) (h * 2 ^ 24)
  = e0 + e1 * 2 ^ 8 + e2 * 2 ^ 16 + h * 2 ^ 24.
Proof.
  intros H0 H1 H2.
  rewrite (lor_disjoint_l e1 e0 8) by lia.
  rewrite (lor_disjoint_l e2 (e0 + e1 * 2 ^ 8) 16) by lia.
  rewrite (lor_disjoint_l h (e0 + e1 * 2 ^ 8 + e2 * 2 ^ 16) 24) by lia.
  reflexivity.
Qed.

(** Big-endian recombination of four digits. *)
Lemma lor_chain_BE (e0 e1 e2 e3 : Z) :
  0 <= e0 < 256 -> 0 <= e1 < 256 -> 0 <= e2 < 256 ->
  Z.lor (Z.lor (Z.lor (e3 * 2 ^ 24) (e2 * 2 ^ 16)) (e1 * 2 ^ 8)) e0
  = e0 + e1 * 2 ^ 8 + e2 * 2 ^ 16 + e3 * 2 ^ 24.
Proof.
  intros H0 H1 H2.
  rewrite (lor_disjoint e3 (e2 * 2 ^ 16) 24) by lia.
  replace (e3 * 2 ^ 24 + e2 * 2 ^ 16) with ((e3 * 2 ^ 8 + e2) * 2 ^ 16) by lia.
  rewrite (lor_disjoint _ (e1 * 2 ^ 8) 16) by lia.
  replace ((e3 * 2 ^ 8 + e2) * 2 ^ 16 + e1 * 2 ^ 8)
    with ((e3 * 2 ^ 16 + e2 * 2 ^ 8 + e1) * 2 ^ 8) by lia.
  rewrite (lor_disjoint _ e0 8) by lia.
  lia.
Qed.

Lemma shl_u32_digit (z k : Z) :
  0 <= k <= 24 -> shl_u32 (byte.of_Z (z mod 2 ^ 8)) k = z mod 2 ^ 8 * 2 ^ k.
Proof.
  intros Hk. unfold shl_u32, uint32_cast.
  rewrite unsigned_digit, Z.shiftl_mul_pow2 by lia.
  pose proof (digit_range z) as Hd.
  assert (0 < 2 ^ k <= 2 ^ 24) by (split; [apply Z.pow_pos_nonneg | apply Z.pow_le_mono_r]; lia).
  apply Z.mod_small. nia.
Qed.

Lemma shl_u64_digit (z k : Z) :
  0 <= k <= 56 -> shl_u64 (byte.of_Z (z mod 2 ^ 8)) k = z mod 2 ^ 8 * 2 ^ k.
Proof.
  intros Hk. unfold shl_u64, uint64_cast.
  rewrite unsigned_digit, Z.shiftl_mul_pow2 by lia.
  pose proof (digit_range z) as Hd.
  assert (0 < 2 ^ k <= 2 ^ 56) by (split; [apply Z.pow_pos_nonneg | apply Z.pow_le_mono_r]; lia).
  apply Z.mod_small. nia.
Qed.

Lemma shl_i32_digit (z k : Z) :
  0 <= k <= 16 -> shl_i32 (byte.of_Z (z mod 2 ^ 8)) k = z mod 2 ^ 8 * 2 ^ k.
Proof.
  intros Hk. unfold shl_i32, int32_cast.
  rewrite unsigned_digit, Z.shiftl_mul_pow2 by lia.
  pose proof (digit_range z) as Hd.
  assert (0 < 2 ^ k <= 2 ^ 16) by (split; [apply Z.pow_pos_nonneg | apply Z.pow_le_mono_r]; lia).
  rewrite Z.mod_small by nia. lia.
Qed.

(** The top byte of a signed 32-bit value, shifted back into place, wraps to
    the signed high part. *)
Lemma shl_i32_top (x : Z) :
  is_int32 x -> shl_i32 (byte.of_Z ((x / 2 ^ 24) mod 2 ^ 8)) 24 = x / 2 ^ 24 * 2 ^ 24.
Proof.
  unfold is_int32. intros Hx. unfold shl_i32, int32_cast.
  rewrite unsigned_digit, Z.shiftl_mul_pow2 by lia.
  change (2 ^ 8) with 256; change (2 ^ 24) with 16777216;
    change (2 ^ 31) with 2147483648 in *; change (2 ^ 32) with 4294967296.
  Z.div_mod_to_equations. lia.
Qed.

Lemma roundtrip_Uint32_BE (x : Z) (b : list byte) (i : nat) :
  (i + 4 <= length b)%nat -> is_uint32 x ->
  putUint32_BE x b i ≫= (λ b', getUint32_BE b' i) = Some x.
Proof.
  intros Hlen Hx. rewrite putUint32_BE_window by exact Hlen. cbn [mbind option_bind].
  unfold getUint32_BE.
  edestruct (load4_window b (drop (i + 4) b) i) as (-> & -> & -> & ->); [lia|].
  cbn [mbind option_bind]. f_equal.
  rewrite !shl_u32_digit, unsigned_digit by lia.
  rewrite lor_chain_BE by apply digit_range.
  symmetry. apply digits32. exact Hx.
Qed.

Lemma roundtrip_Uint32_LE (x : Z) (b : list byte) (i : nat) :
  (i + 4 <= length b)%nat -> is_uint32 x ->
  putUint32_LE x b i ≫= (λ b', getUint32_LE b' i) = Some x.
Proof.
  intros Hlen Hx. rewrite putUint32_LE_window by exact Hlen. cbn [mbind option_bind].
  unfold getUint32_LE.
  edestruct (load4_window b (drop (i + 4) b) i) as (-> & -> & -> & ->); [lia|].
  cbn [mbind option_bind]. f_equal.
  rewrite !shl_u32_digit, unsigned_digit by lia.
  rewrite lor_chain_LE by apply digit_range.
  symmetry. apply digits32. exact Hx.
Qed.

Lemma roundtrip_Int32_LE (x : Z) (b : list byte) (i : nat) :
  (i + 4 <= length b)%nat -> is_int32 x ->
  putInt32_LE x b i ≫= (λ b', getInt32_LE b' i) = Some x.
Proof.
  intros Hlen Hx.
  change (putInt32_LE x b i) with (putUint32_LE x b i).
  rewrite putUint32_LE_window by exact Hlen. cbn [mbind option_bind].
  unfold getInt32_LE.
  edestruct (load4_window b (drop (i + 4) b) i) as (-> & -> & -> & ->); [lia|].
  cbn [mbind option_bind]. f_equal.
  rewrite shl_i32_top by exact Hx.
  rewrite !shl_i32_digit, unsigned_digit by lia.
  rewrite lor_chain_LE by apply digit_range.
  change (2 ^ 8) with 256; change (2 ^ 16) with 65536; change (2 ^ 24) with 16777216.
  Z.div_mod_to_equations. lia.
Qed.

Lemma insert8_window (b : list byte) (i : nat) (x0 x1 x2 x3 x4 x5 x6 x7 : byte) :
  (i + 8 <= length b)%nat ->
  <[(i + 7)%nat := x7]> (<[(i + 6)%nat := x6]> (<[(i + 5)%nat := x5]>
    (<[(i + 4)%nat := x4]> (<[(i + 3)%nat := x3]> (<[(i + 2)%nat := x2]>
      (<[(i + 1)%nat := x1]> (<[i := x0]> b)))))))
  = take i b ++ [x0; x1; x2; x3; x4; x5; x6; x7] ++ drop (i + 8) b.
Proof.
  revert b. induction i as [|i IH]; intros b Hlen.
  - destruct b as [|a0 [|a1 [|a2 [|a3 [|a4 [|a5 [|a6 [|a7 r]]]]]]]];
      simpl in *; try lia. reflexivity.
  - destruct b as [|a b]; simpl in *; [lia|].
    f_equal. apply IH. lia.
Qed.

Lemma putUint64_LE_window (n : Z) (b : list byte) (i : nat) :
  (i + 8 <= length b)%nat ->
  putUint64_LE n b i =
  Some (take i b ++
        [byte.of_Z (n mod 2 ^ 8); byte.of_Z ((n / 2 ^ 8) mod 2 ^ 8);
         byte.of_Z ((n / 2 ^ 16) mod 2 ^ 8); byte.of_Z ((n / 2 ^ 24) mod 2 ^ 8);
         byte.of_Z ((n / 2 ^ 32) mod 2 ^ 8); byte.of_Z ((n / 2 ^ 40) mod 2 ^ 8);
         byte.of_Z ((n / 2 ^ 48) mod 2 ^ 8); byte.of_Z ((n / 2 ^ 56) mod 2 ^ 8)]
        ++ drop (i + 8) b).
Proof.
  intros Hlen. unfold putUint64_LE.
  do 8 (rewrite store_in_range by (rewrite ?length_insert; lia);
        cbn [mbind option_bind]).
  rewrite insert8_window by exact Hlen.
  rewrite <- (Z.shiftr_0_r n) at 1.
  rewrite !byte_mask_digit by lia.
  change (2 ^ 0) with 1. rewrite Z.div_1_r. reflexivity.
Qed.

Lemma load8_window (b r : list byte) (i : nat) (x0 x1 x2 x3 x4 x5 x6 x7 : byte) :
  (i <= length b)%nat ->
  let b' := take i b ++ [x0; x1; x2; x3; x4; x5; x6; x7] ++ r in
  load b' i = Some x0 /\ load b' (i + 1)%nat = Some x1 /\
  load b' (i + 2)%nat = Some x2 /\ load b' (i + 3)%nat = Some x3 /\
  load b' (i + 4)%nat = Some x4 /\ load b' (i + 5)%nat = Some x5 /\
  load b' (i + 6)%nat = Some x6 /\ load b' (i + 7)%nat = Some x7.
Proof.
  intros Hi b'. unfold load, b'.
  pose proof (window_lookup b i 0 [x0; x1; x2; x3; x4; x5; x6; x7] r Hi) as H0.
  rewrite Nat.add_0_r in H0.
  rewrite H0, !window_lookup by exact Hi. simpl. repeat split.
Qed.

Lemma split_low_digit (n : Z) : n = n mod 2 ^ 8 + n / 2 ^ 8 * 2 ^ 8.
Proof. pose proof (Z.div_mod n (2 ^ 8)). lia. Qed.

Lemma div_pow2_step (n k : Z) : 0 <= k -> n / 2 ^ k / 2 ^ 8 = n / 2 ^ (k + 8).
Proof.
  intros Hk. rewrite Z.pow_add_r by lia.
  rewrite Z.div_div by (try apply Z.pow_pos_nonneg; lia). reflexivity.
Qed.

(** The base-256 digits of a 64-bit pattern. *)
Lemma digits64 (n : Z) :
  is_uint64 n ->
  n = n mod 2 ^ 8 + (n / 2 ^ 8) mod 2 ^ 8 * 2 ^ 8
      + (n / 2 ^ 16) mod 2 ^ 8 * 2 ^ 16 + (n / 2 ^ 24) mod 2 ^ 8 * 2 ^ 24
      + (n / 2 ^ 32) mod 2 ^ 8 * 2 ^ 32 + (n / 2 ^ 40) mod 2 ^ 8 * 2 ^ 40
      + (n / 2 ^ 48) mod 2 ^ 8 * 2 ^ 48 + (n / 2 ^ 56) mod 2 ^ 8 * 2 ^ 56.
Proof.
  unfold is_uint64. intros Hn.
  pose proof (split_low_digit n) as E0.
  pose proof (split_low_digit (n / 2 ^ 8)) as E1.
  pose proof (split_low_digit (n / 2 ^ 16)) as E2.
  pose proof (split_low_digit (n / 2 ^ 24)) as E3.
  pose proof (split_low_digit (n / 2 ^ 32)) as E4.
  pose proof (split_low_digit (n / 2 ^ 40)) as E5.
  pose proof (split_low_digit (n / 2 ^ 48)) as E6.
  rewrite (div_pow2_step n 8) in E1 by lia.
  rewrite (div_pow2_step n 16) in E2 by lia.
  rewrite (div_pow2_step n 24) in E3 by lia.
  rewrite (div_pow2_step n 32) in E4 by lia.
  rewrite (div_pow2_step n 40) in E5 by lia.
  rewrite (div_pow2_step n 48) in E6 by lia.
  change (8 + 8) with 16 in E1; change (16 + 8) with 24 in E2;
    change (24 + 8) with 32 in E3; change (32 + 8) with 40 in E4;
    change (40 + 8) with 48 in E5; change (48 + 8) with 56 in E6.
  assert (E7 : (n / 2 ^ 56) mod 2 ^ 8 = n / 2 ^ 56).
  { apply Z.mod_small. split.
    - apply Z.div_pos; lia.
    - apply Z.div_lt_upper_bound; [lia |].
      change (2 ^ 56 * 2 ^ 8) with (2 ^ 64). lia. }
  lia.
Qed.

Lemma lor_chain_LE64 (e0 e1 e2 e3 e4 e5 e6 e7 : Z) :
  0 <= e0 < 256 -> 0 <= e1 < 256 -> 0 <= e2 < 256 -> 0 <= e3 < 256 ->
  0 <= e4 < 256 -> 0 <= e5 < 256 -> 0 <= e6 < 256 ->
  Z.lor (Z.lor (Z.lor (Z.lor (Z.lor (Z.lor (Z.lor
    e0 (e1 * 2 ^ 8)) (e2 * 2 ^ 16)) (e3 * 2 ^ 24)) (e4 * 2 ^ 32)) (e5 * 2 ^ 40))
    (e6 * 2 ^ 48)) (e7 * 2 ^ 56)
  = e0 + e1 * 2 ^ 8 + e2 * 2 ^ 16 + e3 * 2 ^ 24 + e4 * 2 ^ 32 + e5 * 2 ^ 40
    + e6 * 2 ^ 48 + e7 * 2 ^ 56.
Proof.
  intros H0 H1 H2 H3 H4 H5 H6.
  rewrite (lor_disjoint_l e1 _ 8) by lia.
  rewrite (lor_disjoint_l e2 _ 16) by lia.
  rewrite (lor_disjoint_l e3 _ 24) by lia.
  rewrite (lor_disjoint_l e4 _ 32) by lia.
  rewrite (lor_disjoint_l e5 _ 40) by lia.
  rewrite (lor_disjoint_l e6 _ 48) by lia.
  rewrite (lor_disjoint_l e7 _ 56) by lia.
  reflexivity.
Qed.

Lemma roundtrip_Uint64_LE (x : Z) (b : list byte) (i : nat) :
  (i + 8 <= length b)%nat -> is_uint64 x ->
  putUint64_LE x b i ≫= (λ b', getUint64_LE b' i) = Some x.
Proof.
  intros Hlen Hx. rewrite putUint64_LE_window by exact Hlen. cbn [mbind option_bind].
  unfold getUint64_LE.
  edestruct (load8_window b (drop (i + 8) b) i)
    as (-> & -> & -> & -> & -> & -> & -> & ->); [lia|].
  cbn [mbind option_bind]. f_equal.
  rewrite !shl_u64_digit, unsigned_digit by lia.
  rewrite lor_chain_LE64 by apply digit_range.
  symmetry. apply digits64. exact Hx.
Qed.

(** C4: a value written by putUint32_BE, putUint32_LE, putInt32_LE or
    putUint64_LE at index [i] of an array with room for it is returned
    unchanged by getUint32_BE, getUint32_LE, getInt32_LE or getUint64_LE
    at the same index. *)
Theorem put_get_roundtrip (x : Z) (b : list byte) (i : nat) :
  (i + 4 <= length b)%nat ->
  (is_uint32 x -> putUint32_BE x b i ≫= (λ b', getUint32_BE b' i) = Some x) /\
  (is_uint32 x -> putUint32_LE x b i ≫= (λ b', getUint32_LE b' i) = Some x) /\
  (is_int32 x -> putInt32_LE x b i ≫= (λ b', getInt32_LE b' i) = Some x) /\
  ((i + 8 <= length b)%nat -> is_uint64 x ->
   putUint64_LE x b i ≫= (λ b', getUint64_LE b' i) = Some x).
Proof.
  intros Hlen. repeat split; intros.
  - apply roundtrip_Uint32_BE; assumption.
  - apply roundtrip_Uint32_LE; assumption.
  - apply roundtrip_Int32_LE; assumption.
  - apply roundtrip_Uint64_LE; assumption.
Qed.

Lemma put_get_roundtrip_witness :
  let b := replicate 10 Byte.x00 in
  (putUint32_BE 0x7FEEDDCC b 1 ≫= (λ b', getUint32_BE b' 1) = Some 0x7FEEDDCC /\
   putUint32_LE 0x7FEEDDCC b 1 ≫= (λ b', getUint32_LE b' 1) = Some 0x7FEEDDCC /\
   putUint64_LE 0x7FEEDDCC b 1 ≫= (λ b', getUint64_LE b' 1) = Some 0x7FEEDDCC) /\
  putInt32_LE (-2) b 1 ≫= (λ b', getInt32_LE b' 1) = Some (-2).
Proof.
  intros b.
  assert (Hlen4 : (1 + 4 <= length b)%nat) by (simpl; lia).
  assert (Hlen8 : (1 + 8 <= length b)%nat) by (simpl; lia).
  assert (Hu32 : is_uint32 0x7FEEDDCC) by (unfold is_uint32; lia).
  assert (Hu64 : is_uint64 0x7FEEDDCC) by (unfold is_uint64; lia).
  assert (Hi32 : is_int32 (-2)) by (unfold is_int32; lia).
  destruct (put_get_roundtrip 0x7FEEDDCC b 1 Hlen4) as (HBE & HLE & _ & H64).
  destruct (put_get_roundtrip (-2) b 1 Hlen4) as (_ & _ & HI & _).
  repeat split; auto.
Defined.

End EndianFacts.

Section MemoryViewFacts.
Import Exception MemoryView.

Lemma assertIndexInRange_ok (index from to : Z) :
  from <= index < to -> assertIndexInRange index from to = Ok index.
Proof. intros H. unfold assertIndexInRange. case_decide; [reflexivity | lia]. Qed.

Lemma assertIndexInRange_throw (index from to : Z) :
  index < from \/ to <= index ->
  assertIndexInRange index from to = Throw IndexOutOfRangeException.
Proof. intros H. unfold assertIndexInRange. case_decide; [lia | reflexivity]. Qed.

Lemma size_cast_small (size_bits z : Z) :
  is_size size_bits z -> size_cast size_bits z = z.
Proof. unfold is_size, size_cast. intros H. apply Z.mod_small. exact H. Qed.

Lemma size_cast_succ_le (size_bits z : Z) :
  is_size size_bits z -> size_cast size_bits (z + 1) <= z + 1.
Proof.
  unfold is_size, size_cast. intros H.
  apply Z.mod_le; lia.
Qed.

(** An offset plus a size that passes the end of the address space wraps to
    below the offset. *)
Lemma size_cast_add_wrap (size_bits o s : Z) :
  is_size size_bits o -> is_size size_bits s ->
  size_cast size_bits (o + s) = o + s \/ size_cast size_bits (o + s) < o.
Proof.
  unfold is_size, size_cast. intros Ho Hs.
  destruct (Z.lt_ge_cases (o + s) (2 ^ size_bits)) as [Hlt | Hge].
  - left. apply Z.mod_small. lia.
  - right. replace (o + s) with (o + s - 2 ^ size_bits + 1 * 2 ^ size_bits) by lia.
    rewrite Z.mod_add by lia. rewrite Z.mod_small by lia. lia.
Qed.

Lemma dataAs_throws (size_bits sizeofT : Z) (v : t) (o : Z) :
  is_size size_bits (size v) -> is_size size_bits o -> is_size size_bits sizeofT ->
  o + sizeofT > size v ->
  dataAs size_bits sizeofT v o = Throw IndexOutOfRangeException.
Proof.
  intros Hv Ho Hs Hover. unfold dataAs.
  destruct (Z.lt_ge_cases o (size v)) as [Hin | Hout].
  - rewrite (assertIndexInRange_ok o 0 (size v)) by (unfold is_size in Ho; lia).
    cbn [mbind checked_bind].
    rewrite assertIndexInRange_throw; [reflexivity |].
    pose proof (size_cast_succ_le size_bits (size v) Hv) as Hto.
    destruct (size_cast_add_wrap size_bits o sizeofT Ho Hs) as [-> | Hwrap]; lia.
  - rewrite (assertIndexInRange_throw o 0 (size v)) by lia. reflexivity.
Qed.

Lemma construct_throws {W : Type} (size_bits sizeofT : Z) (ctor : Z -> W -> W)
    (v : t) (w : W) :
  is_size size_bits (size v) -> is_size size_bits sizeofT ->
  sizeofT > size v ->
  construct size_bits sizeofT ctor v w = (Throw IndexOutOfRangeException, w).
Proof.
  intros Hv Hs Hover. unfold construct.
  rewrite assertIndexInRange_throw; [reflexivity |].
  pose proof (size_cast_succ_le size_bits (size v) Hv) as Hto.
  rewrite (size_cast_small size_bits sizeofT) by exact Hs. lia.
Qed.

(** Inside the view, and away from the last value of [size_type], the typed
    access and the placement succeed. *)
Lemma dataAs_in_range (size_bits sizeofT : Z) (v : t) (o : Z) :
  size v + 1 < 2 ^ size_bits -> 0 <= o < size v -> 0 <= sizeofT ->
  o + sizeofT <= size v ->
  dataAs size_bits sizeofT v o = Ok (dataAddress v + o).
Proof.
  intros Hv Ho Hs Hfit. unfold dataAs.
  rewrite (assertIndexInRange_ok o 0 (size v)) by lia. cbn [mbind checked_bind].
  rewrite !size_cast_small by (unfold is_size; lia).
  rewrite assertIndexInRange_ok by lia. reflexivity.
Qed.

Lemma construct_in_range {W : Type} (size_bits sizeofT : Z) (ctor : Z -> W -> W)
    (v : t) (w : W) :
  size v + 1 < 2 ^ size_bits -> 0 <= sizeofT <= size v ->
  construct size_bits sizeofT ctor v w = (Ok (dataAddress v), ctor (dataAddress v) w).
Proof.
  intros Hv Hs. unfold construct.
  rewrite !size_cast_small by (unfold is_size; lia).
  rewrite assertIndexInRange_ok by lia. reflexivity.
Qed.

(** C8: [dataAs<T>(o)] throws the out-of-range exception whenever
    [o + sizeof(T)] exceeds the size of the view, also when [o] itself is
    inside the view; [construct<T>] throws it whenever [sizeof(T)] exceeds
    the size, and then the constructor of [T] has not run: the state it would
    have changed is as before. *)
Theorem typed_access_checks_sizeof (size_bits sizeofT : Z) (v : t) (o : Z) :
  is_size size_bits (size v) -> is_size size_bits o -> is_size size_bits sizeofT ->
  (o + sizeofT > size v ->
   dataAs size_bits sizeofT v o = Throw IndexOutOfRangeException) /\
  (sizeofT > size v ->
   forall (W : Type) (ctor : Z -> W -> W) (w : W),
     construct size_bits sizeofT ctor v w = (Throw IndexOutOfRangeException, w)).
Proof.
  intros Hv Ho Hs. split.
  - apply dataAs_throws; assumption.
  - intros Hover W ctor w. apply construct_throws; assumption.
Qed.

Lemma typed_access_checks_sizeof_witness :
  dataAs 64 12 {| dataAddress := 4096; size := 17 |} 6 = Throw IndexOutOfRangeException /\
  construct 64 12 (λ _ (instances : nat), S instances) {| dataAddress := 4096; size := 3 |} 0%nat
    = (Throw IndexOutOfRangeException, 0%nat).
Proof.
  split.
  - apply (typed_access_checks_sizeof 64 12 {| dataAddress := 4096; size := 17 |} 6);
      unfold is_size; simpl; lia.
  - apply (typed_access_checks_sizeof 64 12 {| dataAddress := 4096; size := 3 |} 0);
      unfold is_size; simpl; lia.
Defined.

(** C5: [slice(from, to)] with [from <= to <= size] returns a view of
    [to - from] bytes that starts [from] bytes into the parent, so
    [from = to] gives an empty view, also on the empty view; with
    [from > to], [to > size] or [from > size] it throws the out-of-range
    exception. *)
Theorem slice_bounds (v : t) (from to : Z) :
  (from <= to -> to <= size v ->
   exists s, slice v from to = Ok s /\ size s = to - from
             /\ dataAddress s = dataAddress v + from) /\
  (from <= size v -> exists s, slice v from from = Ok s /\ size s = 0) /\
  (exists s, slice empty 0 0 = Ok s /\ size s = 0) /\
  (from > to \/ to > size v \/ from > size v ->
   slice v from to = Throw IndexOutOfRangeException).
Proof.
  unfold slice. split; [| split; [| split]].
  - intros Hle Hto. case_decide; [lia |].
    eexists; split; [reflexivity |]. simpl. auto.
  - intros Hle. case_decide; [lia |].
    eexists; split; [reflexivity |]. simpl. lia.
  - destruct (decide _) as [Hbad | _]; [cbn in Hbad; lia |].
    eexists; split; [reflexivity |]. simpl. lia.
  - intros Hbad. case_decide; [reflexivity | lia].
Qed.

Lemma slice_bounds_witness :
  (exists s, slice {| dataAddress := 4096; size := 64 |} 32 64 = Ok s /\ size s = 32
             /\ dataAddress s = 4128) /\
  slice {| dataAddress := 4096; size := 64 |} 120 152 = Throw IndexOutOfRangeException /\
  slice {| dataAddress := 4096; size := 64 |} 31 18 = Throw IndexOutOfRangeException /\
  slice {| dataAddress := 4096; size := 64 |} 31 939 = Throw IndexOutOfRangeException.
Proof.
  split; [| split; [| split]].
  - apply (slice_bounds {| dataAddress := 4096; size := 64 |} 32 64); simpl; lia.
  - apply (slice_bounds {| dataAddress := 4096; size := 64 |} 120 152); simpl; lia.
  - apply (slice_bounds {| dataAddress := 4096; size := 64 |} 31 18); simpl; lia.
  - apply (slice_bounds {| dataAddress := 4096; size := 64 |} 31 939); simpl; lia.
Defined.

(** The loop of [fill] sets the bytes of the filled range and no other. *)
Lemma fill_bytes_lookup (value : byte) (count a : nat) (mem : Memory) (j : nat) :
  fill_bytes value a count mem !! j =
  if decide (a <= j < a + count)%nat then (λ _, value) <$> (mem !! j) else mem !! j.
Proof.
  revert a mem. induction count as [|count IH]; intros a mem; cbn [fill_bytes].
  - case_decide; [lia | reflexivity].
  - rewrite IH. destruct (decide (j = a)) as [-> | Hne].
    + rewrite decide_False by lia. rewrite decide_True by lia.
      destruct (mem !! a) as [x|] eqn:E.
      * apply lookup_lt_Some in E. rewrite list_lookup_insert_eq by exact E. reflexivity.
      * apply lookup_ge_None in E. rewrite list_insert_ge by exact E.
        apply lookup_ge_None. exact E.
    + rewrite list_lookup_insert_ne by congruence.
      repeat case_decide; try lia; reflexivity.
Qed.

Lemma fill_bytes_length (value : byte) (count a : nat) (mem : Memory) :
  length (fill_bytes value a count mem) = length mem.
Proof.
  revert a mem. induction count as [|count IH]; intros a mem; cbn [fill_bytes].
  - reflexivity.
  - rewrite IH. apply length_insert.
Qed.

(** C6: [fill(value, from, to)] with [from > to], [from > size] or
    [to > size] throws the out-of-range exception and leaves every byte of
    the memory as it was. *)
Theorem fill_out_of_range (v : t) (value : byte) (from to : Z) (mem : Memory) :
  from > to \/ from > size v \/ to > size v ->
  fill v value from to mem = (Throw IndexOutOfRangeException, mem).
Proof.
  intros Hbad. unfold fill. case_decide; [lia | reflexivity].
Qed.

Lemma fill_out_of_range_witness :
  let v := {| dataAddress := 0; size := 48 |} in
  let mem := replicate 48 Byte.x40 in
  fill v Byte.x03 3 130 mem = (Throw IndexOutOfRangeException, mem) /\
  fill v Byte.x03 100 30 mem = (Throw IndexOutOfRangeException, mem) /\
  fill v Byte.x03 30 3 mem = (Throw IndexOutOfRangeException, mem) /\
  fill v Byte.x03 100 130 mem = (Throw IndexOutOfRangeException, mem).
Proof.
  intros v mem.
  split; [| split; [| split]]; apply fill_out_of_range; simpl; lia.
Defined.

(** With valid bounds the bytes of the range take the value and the others
    keep theirs. *)
Lemma fill_in_range (v : t) (value : byte) (from to : Z) (mem : Memory) (j : nat) :
  0 <= dataAddress v -> 0 <= from <= to -> to <= size v ->
  (Z.to_nat (dataAddress v + size v) <= length mem)%nat ->
  fst (fill v value from to mem) = Ok v /\
  snd (fill v value from to mem) !! j =
    if decide (dataAddress v + from <= Z.of_nat j < dataAddress v + to)
    then Some value else mem !! j.
Proof.
  intros Ha Hft Hto Hmem. unfold fill. rewrite decide_True by lia.
  split; [reflexivity |]. cbn [snd]. rewrite fill_bytes_lookup.
  destruct (decide (dataAddress v + from <= Z.of_nat j < dataAddress v + to)) as [Hin | Hout].
  - rewrite decide_True by lia.
    destruct (mem !! j) eqn:E; [reflexivity | apply lookup_ge_None in E; lia].
  - rewrite decide_False by lia. reflexivity.
Qed.



(** A move-assignment into an empty slice at a non-null address: the source
    is left with size 0 at that address, not with address 0. *)
Lemma move_assign_into_empty_slice :
  slice {| dataAddress := 4096; size := 24 |} 3 3
    = Ok {| dataAddress := 4099; size := 0 |} /\
  snd (move_assign {| dataAddress := 4099; size := 0 |} {| dataAddress := 8192; size := 8 |})
    = {| dataAddress := 4099; size := 0 |} /\
  ~ source_zeroed (move_assign {| dataAddress := 4099; size := 0 |}
                               {| dataAddress := 8192; size := 8 |})
                  {| dataAddress := 8192; size := 8 |}.
Proof.
  split; [reflexivity |]. split; [reflexivity |].
  unfold source_zeroed. cbn. intros (_ & Haddr & _). discriminate Haddr.
Qed.

End MemoryViewFacts.

Section BufferFacts.
Import Cursor.

Ltac unfold_cursor :=
  cbv [WriteBuffer.capacity WriteBuffer.limit WriteBuffer.position
       ByteBuffer.capacity ByteBuffer.limit ByteBuffer.position
       ReadBuffer.capacity ReadBuffer.limit ReadBuffer.position];
  cbn.

Lemma WriteBuffer_position_flips (n : nat) (b : WriteBuffer.t) :
  WriteBuffer.position b = 0 -> WriteBuffer.position (Nat.iter n WriteBuffer.flip b) = 0.
Proof. intros Hpos. destruct n; [exact Hpos | reflexivity]. Qed.

Lemma ByteBuffer_position_flips (n : nat) (b : ByteBuffer.t) :
  ByteBuffer.position b = 0 -> ByteBuffer.position (Nat.iter n ByteBuffer.flip b) = 0.
Proof. intros Hpos. destruct n; [exact Hpos | reflexivity]. Qed.

Lemma WriteBuffer_lifecycle (b : WriteBuffer.t) :
  cursor_inv WriteBuffer.position WriteBuffer.limit WriteBuffer.capacity b ->
  lifecycle_laws WriteBuffer.position WriteBuffer.limit WriteBuffer.capacity
                 WriteBuffer.clear WriteBuffer.flip WriteBuffer.rewind b.
Proof.
  unfold lifecycle_laws, cursor_inv. intros (H0 & Hpl & Hlc).
  destruct b as [p l st].
  unfold WriteBuffer.position, WriteBuffer.limit, WriteBuffer.capacity in *.
  cbn in *.
  split; [| split; [| split; [| split]]].
  - repeat split; try reflexivity; unfold_cursor; lia.
  - repeat split; try reflexivity; unfold_cursor; lia.
  - repeat split; try reflexivity; unfold_cursor; lia.
  - reflexivity.
  - intros n Hp.
    apply (WriteBuffer_position_flips n
             {| WriteBuffer._position := p; WriteBuffer._limit := l; WriteBuffer._storage := st |}).
    exact Hp.
Qed.

Lemma ByteBuffer_lifecycle (b : ByteBuffer.t) :
  cursor_inv ByteBuffer.position ByteBuffer.limit ByteBuffer.capacity b ->
  lifecycle_laws ByteBuffer.position ByteBuffer.limit ByteBuffer.capacity
                 ByteBuffer.clear ByteBuffer.flip ByteBuffer.rewind b.
Proof.
  unfold lifecycle_laws, cursor_inv. intros (H0 & Hpl & Hlc).
  destruct b as [p l st].
  unfold ByteBuffer.position, ByteBuffer.limit, ByteBuffer.capacity,
    ReadBuffer.position, ReadBuffer.limit, ReadBuffer.capacity in *.
  cbn in *.
  split; [| split; [| split; [| split]]].
  - repeat split; try reflexivity; unfold_cursor; lia.
  - repeat split; try reflexivity; unfold_cursor; lia.
  - repeat split; try reflexivity; unfold_cursor; lia.
  - reflexivity.
  - intros n Hp.
    apply (ByteBuffer_position_flips n
             {| ReadBuffer._position := p; ReadBuffer._limit := l; ReadBuffer._storage := st |}).
    exact Hp.
Qed.

(** C2: on a WriteBuffer and on a ByteBuffer with
    [0 <= position <= limit <= capacity], [clear] leaves position 0 and limit
    equal to the capacity, [flip] leaves limit equal to the old position and
    position 0, [rewind] leaves position 0 and the limit as it was; each keeps
    the capacity and the invariant; [clear] twice is [clear] once, and one or
    more [flip]s of a buffer whose position is 0 leave limit 0. *)
Theorem buffer_lifecycle (wb : WriteBuffer.t) (bb : ByteBuffer.t) :
  cursor_inv WriteBuffer.position WriteBuffer.limit WriteBuffer.capacity wb ->
  cursor_inv ByteBuffer.position ByteBuffer.limit ByteBuffer.capacity bb ->
  lifecycle_laws WriteBuffer.position WriteBuffer.limit WriteBuffer.capacity
                 WriteBuffer.clear WriteBuffer.flip WriteBuffer.rewind wb /\
  lifecycle_laws ByteBuffer.position ByteBuffer.limit ByteBuffer.capacity
                 ByteBuffer.clear ByteBuffer.flip ByteBuffer.rewind bb.
Proof.
  intros Hwb Hbb. split.
  - apply WriteBuffer_lifecycle. exact Hwb.
  - apply ByteBuffer_lifecycle. exact Hbb.
Qed.

Lemma buffer_lifecycle_witness :
  let st := {| MemoryBuffer.view := {| MemoryView.dataAddress := 4096; MemoryView.size := 10 |};
               MemoryBuffer.owned := false |} in
  let wb := {| WriteBuffer._position := 3; WriteBuffer._limit := 7;
               WriteBuffer._storage := st |} in
  let bb := {| ReadBuffer._position := 0; ReadBuffer._limit := 10;
               ReadBuffer._storage := st |} in
  lifecycle_laws WriteBuffer.position WriteBuffer.limit WriteBuffer.capacity
                 WriteBuffer.clear WriteBuffer.flip WriteBuffer.rewind wb /\
  lifecycle_laws ByteBuffer.position ByteBuffer.limit ByteBuffer.capacity
                 ByteBuffer.clear ByteBuffer.flip ByteBuffer.rewind bb.
Proof.
  intros st wb bb.
  apply (buffer_lifecycle wb bb); unfold cursor_inv; cbn; lia.
Defined.

End BufferFacts.

Section OptionalFacts.
Import Optional.

(** C10: on an empty Optional, [map] (in both overloads) and [flatMap]
    return the empty Optional and the callable is not invoked: whatever its
    effects, the state is as before, and a logged callable has nothing added
    to its log.  On an Optional holding [x], [map] invokes the callable once,
    on [x], and returns an Optional holding its result; [flatMap] invokes it
    once, on [x], and returns its result. *)
Theorem map_flatMap_none_some {S T U : Type}
    (fr : RefCallable S T U) (f : Callable S T U) (g : Callable S T (Optional.t U))
    (x : T) (s : S) (log : list T) :
  (map fr none s = ((none, none), s) /\
   map_const f none s = (none, s) /\
   flatMap g none s = (none, s)) /\
  (map (logged_ref fr) none (log, s) = ((none, none), (log, s)) /\
   map_const (logged f) none (log, s) = (none, (log, s)) /\
   flatMap (logged g) none (log, s) = (none, (log, s))) /\
  (map fr (some x) s = ((some (fr x s).1.1, some (fr x s).1.2), (fr x s).2) /\
   map_const f (some x) s = (some (f x s).1, (f x s).2) /\
   flatMap g (some x) s = g x s) /\
  (map (logged_ref fr) (some x) (log, s)
     = ((some (fr x s).1.1, some (fr x s).1.2), (log ++ [x], (fr x s).2)) /\
   map_const (logged f) (some x) (log, s) = (some (f x s).1, (log ++ [x], (f x s).2)) /\
   flatMap (logged g) (some x) (log, s) = ((g x s).1, (log ++ [x], (g x s).2))).
Proof.
  unfold map, map_const, flatMap, logged, logged_ref. cbn.
  destruct (fr x s) as [[u' x'] s0]. destruct (f x s) as [u s1].
  destruct (g x s) as [o s2]. cbn.
  repeat split.
Qed.

(** A pure function used as a callable. *)
Lemma map_pure {T U : Type} (h : T -> U) (o : Optional.t T) :
  fst (map_const (λ x (s : unit), (h x, s)) o tt) =
  match o with some x => some (h x) | none => none end.
Proof. destruct o; reflexivity. Qed.

End OptionalFacts.

Section SelectorFacts.
Import Exception Selector.

Lemma omap_all_None {A B : Type} (f : A -> option B) (l : list A) :
  (forall x, x ∈ l -> f x = None) -> omap f l = [].
Proof.
  induction l as [|a l IH]; intros Hall; cbn.
  - reflexivity.
  - rewrite (Hall a) by (left). apply IH.
    intros x Hx. apply Hall. right. exact Hx.
Qed.

Lemma poll_no_events (s : Selector.t) (timeoutMillis : Z) (now : Z -> Mask) :
  (forall h r, registrations s !! h = Some r -> intersects (interest r) (now h) = false) ->
  ready (poll s timeoutMillis now) = [].
Proof.
  intros Hidle. cbn. apply omap_all_None.
  intros [h r] Hin. apply elem_of_map_to_list in Hin.
  unfold event_of. cbn. rewrite (Hidle h r Hin). reflexivity.
Qed.

(** An exhausted sequence cannot be advanced. *)
Lemma next_at_end (i : Iterator) :
  neq i (end_ i) = false -> next i = Throw IndexOutOfRangeException.
Proof.
  unfold neq, next, end_. cbn. intros Hend.
  apply negb_false_iff, Nat.eqb_eq in Hend.
  case_decide; [lia | reflexivity].
Qed.

(** C9: when no registered handle is ready for what it was registered for,
    the sequence that [poll] returns is at its end, and advancing it throws
    the out-of-range exception. *)
Theorem poll_nothing_ready (s : Selector.t) (timeoutMillis : Z) (now : Z -> Mask) :
  (forall h r, registrations s !! h = Some r -> intersects (interest r) (now h) = false) ->
  let i := poll s timeoutMillis now in
  neq i (end_ i) = false /\ next i = Throw IndexOutOfRangeException.
Proof.
  intros Hidle i.
  assert (Hend : neq i (end_ i) = false).
  { unfold neq, end_, i. rewrite (poll_no_events s timeoutMillis now Hidle). reflexivity. }
  split; [exact Hend | apply next_at_end; exact Hend].
Qed.

Lemma poll_nothing_ready_witness :
  let i := poll (createPoll 3) 1 (λ _, Write) in
  neq i (end_ i) = false /\ next i = Throw IndexOutOfRangeException.
Proof.
  apply (poll_nothing_ready (createPoll 3) 1 (λ _, Write)).
  intros h r Hreg. cbn in Hreg. rewrite lookup_empty in Hreg. discriminate Hreg.
Defined.

(** A read end with nothing to read is not reported, whatever else is
    writable. *)
Lemma poll_read_end_idle (pipe_read : Z) :
  let s := add (createPoll 5) pipe_read Read 0 in
  let i := poll s 1 (λ _, Write) in
  neq i (end_ i) = false.
Proof.
  intros s i. unfold neq, end_, i.
  rewrite (poll_no_events s 1 (λ _, Write)); [reflexivity |].
  intros h r Hreg. cbn in Hreg.
  apply lookup_insert_Some in Hreg as [[_ <-] | [_ Hreg]].
  - reflexivity.
  - rewrite lookup_empty in Hreg. discriminate Hreg.
Qed.

End SelectorFacts.

Section AsyncFacts.
Import Exception Async.
Context {T E W : Type}.

Lemma settle_pending (st : State T E) (c : Cell T E W) (w : W) :
  state c = Pending ->
  settle st c w = (Ok tt, ({| state := st; continuations := [] |}, fire st (continuations c) w)).
Proof. intros Hp. unfold settle. rewrite Hp. reflexivity. Qed.

Lemma settle_settled (st : State T E) (c : Cell T E W) (w : W) :
  state c <> Pending -> settle st c w = (Throw InvalidStateException, (c, w)).
Proof. intros Hs. unfold settle. destruct (state c); [congruence | reflexivity ..]. Qed.

Lemma call_settled (call : Call T E) (c : Cell T E W) (w : W) :
  state c <> Pending -> call_promise call c w = (Throw InvalidStateException, (c, w)).
Proof. intros Hs. destruct call; apply settle_settled; exact Hs. Qed.

(** Every call on a settled cell throws and changes nothing. *)
Lemma run_settled (calls : list (Call T E)) (c : Cell T E W) (w : W) :
  state c <> Pending ->
  run calls c w = ((λ _, Throw InvalidStateException) <$> calls, (c, w)).
Proof.
  intros Hs. induction calls as [|call calls IH]; cbn [run fmap list_fmap].
  - reflexivity.
  - rewrite call_settled by exact Hs. rewrite IH. reflexivity.
Qed.

Lemma outcome_not_pending (call : Call T E) : outcome call <> Pending.
Proof. destruct call; discriminate. Qed.

(** C1: on a pending cell the first call of [resolve] or [fail] succeeds
    and settles the cell with its value or error; every later call of
    either throws the invalid-state exception and leaves the cell, and so
    the value or error that the Future sees, as the first call set it. *)
Theorem promise_single_assignment (first : Call T E) (later : list (Call T E))
    (c : Cell T E W) (w : W) :
  state c = Pending ->
  exists c1 w1,
    call_promise first c w = (Ok tt, (c1, w1)) /\
    state c1 = outcome first /\
    (forall second, call_promise second c1 w1 = (Throw InvalidStateException, (c1, w1))) /\
    run (first :: later) c w
      = (Ok tt :: ((λ _, Throw InvalidStateException) <$> later), (c1, w1)).
Proof.
  intros Hp.
  exists {| state := outcome first; continuations := [] |},
         (fire (outcome first) (continuations c) w).
  assert (Hfirst : call_promise first c w =
            (Ok tt, ({| state := outcome first; continuations := [] |},
                     fire (outcome first) (continuations c) w))).
  { destruct first; apply settle_pending; exact Hp. }
  split; [exact Hfirst |]. split; [reflexivity |]. split.
  - intros second. apply call_settled. apply outcome_not_pending.
  - cbn [run]. rewrite Hfirst. rewrite run_settled by apply outcome_not_pending.
    reflexivity.
Qed.

End AsyncFacts.

Lemma promise_single_assignment_witness :
  exists c1 w1,
    Async.call_promise (Async.Resolve 7) (@Async.newCell Z bool unit) tt
      = (Exception.Ok tt, (c1, w1)) /\
    Async.state c1 = Async.Resolved 7 /\
    (forall second, Async.call_promise second c1 w1
                    = (Exception.Throw Exception.InvalidStateException, (c1, w1))) /\
    Async.run [Async.Resolve 7; Async.Resolve 8; Async.Fail true] Async.newCell tt
      = ([Exception.Ok tt; Exception.Throw Exception.InvalidStateException;
          Exception.Throw Exception.InvalidStateException], (c1, w1)).
Proof.
  apply (promise_single_assignment (Async.Resolve 7) [Async.Resolve 8; Async.Fail true]
           Async.newCell tt).
  reflexivity.
Defined.

(** ** Checks of the embedding on concrete inputs *)

Section Examples.
Import Exception.

Example getUint32_BE_bytes :
  Endian.getUint32_BE [Byte.x01; Byte.x02; Byte.x03; Byte.x04] 0 = Some 0x01020304.
Proof. reflexivity. Qed.

Example getUint32_LE_bytes :
  Endian.getUint32_LE [Byte.x04; Byte.x03; Byte.x02; Byte.x01] 0 = Some 0x01020304.
Proof. reflexivity. Qed.

Example getInt32_LE_negative :
  Endian.getInt32_LE [Byte.xfe; Byte.xff; Byte.xff; Byte.xff] 0 = Some (-2).
Proof. reflexivity. Qed.

Example putInt32_LE_negative :
  Endian.putInt32_LE (-2) [Byte.x00; Byte.x00; Byte.x00; Byte.x00] 0
  = Some [Byte.xfe; Byte.xff; Byte.xff; Byte.xff].
Proof. reflexivity. Qed.

Example putUint64_LE_bytes :
  Endian.putUint64_LE 0x0102030405060708 (replicate 8 Byte.x00) 0
  = Some [Byte.x08; Byte.x07; Byte.x06; Byte.x05; Byte.x04; Byte.x03; Byte.x02; Byte.x01].
Proof. reflexivity. Qed.

Example getUint32_BE_short_array :
  Endian.getUint32_BE [Byte.x01; Byte.x02; Byte.x03] 0 = None.
Proof. reflexivity. Qed.

Example putUint32_BE_short_array :
  Endian.putUint32_BE 1 [Byte.x00; Byte.x00; Byte.x00; Byte.x00] 1 = None.
Proof. reflexivity. Qed.

Example dataAs_offset_4 :
  MemoryView.dataAs 64 12 {| MemoryView.dataAddress := 4096; MemoryView.size := 17 |} 4
  = Ok 4100.
Proof. reflexivity. Qed.

Example construct_counts_instance :
  MemoryView.construct 64 12 (λ _ (instances : nat), S instances)
    {| MemoryView.dataAddress := 4096; MemoryView.size := 12 |} 0%nat
  = (Ok 4096, 1%nat).
Proof. reflexivity. Qed.

Example fill_range :
  MemoryView.fill {| MemoryView.dataAddress := 1; MemoryView.size := 5 |} Byte.x24 2 4
    (replicate 7 Byte.x40)
  = (Ok {| MemoryView.dataAddress := 1; MemoryView.size := 5 |},
     [Byte.x40; Byte.x40; Byte.x40; Byte.x24; Byte.x24; Byte.x40; Byte.x40]).
Proof. reflexivity. Qed.

Example wrap_null_nonzero :
  MemoryView.wrapMemory 0 321 = Throw IllegalArgumentException /\
  MemoryView.wrapMemory 0 0 = Ok MemoryView.empty.
Proof. split; reflexivity. Qed.

Example move_construct_example :
  MemoryView.move_construct {| MemoryView.dataAddress := 4096; MemoryView.size := 7 |}
  = ({| MemoryView.dataAddress := 4096; MemoryView.size := 7 |}, MemoryView.empty).
Proof. reflexivity. Qed.

Example write_then_flip :
  let b := WriteBuffer.of_view {| MemoryView.dataAddress := 4096; MemoryView.size := 10 |} in
  let written := {| WriteBuffer._position := 4; WriteBuffer._limit := WriteBuffer._limit b;
                    WriteBuffer._storage := WriteBuffer._storage b |} in
  WriteBuffer.limit (WriteBuffer.flip written) = 4 /\
  WriteBuffer.position (WriteBuffer.flip written) = 0 /\
  WriteBuffer.limit (WriteBuffer.clear (WriteBuffer.flip written)) = 10.
Proof. repeat split. Qed.

Example optional_get_none : Optional.get (@Optional.none Z) = Throw InvalidStateException.
Proof. reflexivity. Qed.

Example optional_map_counts :
  Optional.map_const (Optional.logged (λ (x : Z) (calls : nat), (x + 1, S calls)))
    (Optional.some 41) ([], 0%nat)
  = (Optional.some 42, ([41], 1%nat)).
Proof. reflexivity. Qed.

(** Continuations attached while pending run in attachment order at the
    transition; one attached after it runs at once. *)
Example continuations_in_order :
  let k (tag : nat) : Async.State Z bool -> list nat -> list nat := λ _ seen, seen ++ [tag] in
  let '(c1, w1) := Async.then_ (k 1%nat) Async.newCell [] in
  let '(c2, w2) := Async.then_ (k 2%nat) c1 w1 in
  let '(r, (c3, w3)) := Async.resolve 7 c2 w2 in
  let '(c4, w4) := Async.then_ (k 3%nat) c3 w3 in
  w2 = [] /\ r = Ok tt /\ w3 = [1%nat; 2%nat] /\ w4 = [1%nat; 2%nat; 3%nat]
  /\ Async.state c4 = Async.Resolved 7.
Proof. cbn. repeat split. Qed.

Example poll_write_end_ready :
  let s := Selector.add (Selector.createPoll 5) 4 Selector.Write 0 in
  let i := Selector.poll s 1 (λ _, Selector.Write) in
  Selector.neq i (Selector.end_ i) = true /\
  Selector.deref i = Ok {| Selector.fd := 4; Selector.events := Selector.Write |}.
Proof. vm_compute. split; reflexivity. Qed.

Example remove_never_added :
  Selector.remove (Selector.createPoll 5) 4 = Selector.createPoll 5.
Proof.
  unfold Selector.remove, Selector.createPoll. cbn. f_equal.
Qed.

End Examples.

(** ** Further properties of the byte-order helpers *)

Section EndianMore.
Import Types Endian EndianSpec.

Lemma unsigned_byte_range (x : byte) : 0 <= byte.unsigned x < 256.
Proof. pose proof (byte.unsigned_range x) as H. change (2 ^ 8) with 256 in H. exact H. Qed.

Lemma shl_u32_byte (x : byte) (k : Z) :
  0 <= k <= 24 -> shl_u32 x k = byte.unsigned x * 2 ^ k.
Proof.
  intros Hk. rewrite <- (byte.of_Z_unsigned x) at 1.
  rewrite <- (Z.mod_small (byte.unsigned x) (2 ^ 8)) at 1 by apply byte.unsigned_range.
  rewrite shl_u32_digit by exact Hk.
  rewrite Z.mod_small by apply byte.unsigned_range. reflexivity.
Qed.

Lemma shl_u64_byte (x : byte) (k : Z) :
  0 <= k <= 56 -> shl_u64 x k = byte.unsigned x * 2 ^ k.
Proof.
  intros Hk. rewrite <- (byte.of_Z_unsigned x) at 1.
  rewrite <- (Z.mod_small (byte.unsigned x) (2 ^ 8)) at 1 by apply byte.unsigned_range.
  rewrite shl_u64_digit by exact Hk.
  rewrite Z.mod_small by apply byte.unsigned_range. reflexivity.
Qed.

Lemma shl_i32_byte (x : byte) (k : Z) :
  0 <= k <= 16 -> shl_i32 x k = byte.unsigned x * 2 ^ k.
Proof.
  intros Hk. rewrite <- (byte.of_Z_unsigned x) at 1.
  rewrite <- (Z.mod_small (byte.unsigned x) (2 ^ 8)) at 1 by apply byte.unsigned_range.
  rewrite shl_i32_digit by exact Hk.
  rewrite Z.mod_small by apply byte.unsigned_range. reflexivity.
Qed.

(** The top byte of a signed read: values from 128 on count as negative. *)
Lemma shl_i32_byte_top (x : byte) :
  shl_i32 x 24 = (if decide (byte.unsigned x < 128) then byte.unsigned x
                  else byte.unsigned x - 256) * 2 ^ 24.
Proof.
  unfold shl_i32, int32_cast. rewrite Z.shiftl_mul_pow2 by lia.
  pose proof (unsigned_byte_range x) as Hx.
  change (2 ^ 24) with 16777216; change (2 ^ 31) with 2147483648;
    change (2 ^ 32) with 4294967296.
  case_decide.
  - rewrite Z.mod_small by lia. lia.
  - replace (byte.unsigned x * 16777216 + 2147483648)
      with (byte.unsigned x * 16777216 + 2147483648 - 4294967296 + 1 * 4294967296) by lia.
    rewrite Z.mod_add by lia. rewrite Z.mod_small by lia. lia.
Qed.

Lemma int32_cast_pattern (z : Z) :
  0 <= z < 2 ^ 32 ->
  int32_cast z = if decide (z < 2 ^ 31) then z else z - 2 ^ 32.
Proof.
  intros Hz. unfold int32_cast.
  change (2 ^ 31) with 2147483648 in *; change (2 ^ 32) with 4294967296 in *.
  case_decide.
  - rewrite Z.mod_small by lia. lia.
  - replace (z + 2147483648) with (z - 2147483648 + 1 * 4294967296) by lia.
    rewrite Z.mod_add by lia. rewrite Z.mod_small by lia. lia.
Qed.

Lemma loads4 (b : list byte) (i : nat) (x0 x1 x2 x3 : byte) :
  b !! i = Some x0 -> b !! (i + 1)%nat = Some x1 ->
  b !! (i + 2)%nat = Some x2 -> b !! (i + 3)%nat = Some x3 ->
  b = take i b ++ [x0; x1; x2; x3] ++ drop (i + 4) b.
Proof.
  intros H0 H1 H2 H3.
  rewrite <- (take_drop i b) at 1. f_equal.
  rewrite (drop_S b x0 i H0).
  replace (S i) with (i + 1)%nat by lia. rewrite (drop_S b x1 _ H1).
  replace (S (i + 1)) with (i + 2)%nat by lia. rewrite (drop_S b x2 _ H2).
  replace (S (i + 2)) with (i + 3)%nat by lia. rewrite (drop_S b x3 _ H3).
  replace (S (i + 3)) with (i + 4)%nat by lia. reflexivity.
Qed.

Lemma get32_closed (b : list byte) (i : nat) (x0 x1 x2 x3 : byte) :
  b !! i = Some x0 -> b !! (i + 1)%nat = Some x1 ->
  b !! (i + 2)%nat = Some x2 -> b !! (i + 3)%nat = Some x3 ->
  let u := byte.unsigned in
  let be := u x0 * 2 ^ 24 + u x1 * 2 ^ 16 + u x2 * 2 ^ 8 + u x3 in
  let le := u x0 + u x1 * 2 ^ 8 + u x2 * 2 ^ 16 + u x3 * 2 ^ 24 in
  (getUint32_BE b i = Some be /\ is_uint32 be) /\
  (getUint32_LE b i = Some le /\ is_uint32 le) /\
  (getInt32_LE b i = Some (if decide (le < 2 ^ 31) then le else le - 2 ^ 32)
   /\ is_int32 (if decide (le < 2 ^ 31) then le else le - 2 ^ 32)).
Proof.
  intros H0 H1 H2 H3 u be le.
  pose proof (unsigned_byte_range x0) as R0. pose proof (unsigned_byte_range x1) as R1.
  pose proof (unsigned_byte_range x2) as R2. pose proof (unsigned_byte_range x3) as R3.
  unfold getUint32_BE, getUint32_LE, getInt32_LE, load.
  rewrite H0, H1, H2, H3. cbn [mbind option_bind].
  rewrite !shl_u32_byte, !shl_i32_byte, shl_i32_byte_top by lia.
  rewrite lor_chain_BE, !lor_chain_LE by assumption.
  subst u be le. cbv beta. unfold is_uint32, is_int32.
  change (2 ^ 8) with 256 in *; change (2 ^ 16) with 65536 in *;
    change (2 ^ 24) with 16777216 in *; change (2 ^ 31) with 2147483648 in *;
    change (2 ^ 32) with 4294967296 in *.
  repeat split; repeat case_decide; try lia; f_equal; lia.
Qed.

(** X1: when the four bytes at [i] are inside the array, getUint32_BE,
    getUint32_LE and getInt32_LE return the sum of the bytes weighted by
    their place (first byte highest for BE, lowest for LE), the signed read
    taking patterns from [2^31] on as negative; each result is in the range
    of its type. *)
Theorem get32_value (b : list byte) (i : nat) (x0 x1 x2 x3 : byte) :
  b !! i = Some x0 -> b !! (i + 1)%nat = Some x1 ->
  b !! (i + 2)%nat = Some x2 -> b !! (i + 3)%nat = Some x3 ->
  let u := byte.unsigned in
  let be := u x0 * 2 ^ 24 + u x1 * 2 ^ 16 + u x2 * 2 ^ 8 + u x3 in
  let le := u x0 + u x1 * 2 ^ 8 + u x2 * 2 ^ 16 + u x3 * 2 ^ 24 in
  (getUint32_BE b i = Some be /\ is_uint32 be) /\
  (getUint32_LE b i = Some le /\ is_uint32 le) /\
  (getInt32_LE b i = Some (if decide (le < 2 ^ 31) then le else le - 2 ^ 32)
   /\ is_int32 (if decide (le < 2 ^ 31) then le else le - 2 ^ 32)).
Proof.
  intros H0 H1 H2 H3 u be le.
  pose proof (unsigned_byte_range x0) as R0. pose proof (unsigned_byte_range x1) as R1.
  pose proof (unsigned_byte_range x2) as R2. pose proof (unsigned_byte_range x3) as R3.
  unfold getUint32_BE, getUint32_LE, getInt32_LE, load.
  rewrite H0, H1, H2, H3. cbn [mbind option_bind].
  rewrite !shl_u32_byte, !shl_i32_byte, shl_i32_byte_top by lia.
  rewrite lor_chain_BE, !lor_chain_LE by assumption.
  subst u be le. cbv beta. unfold is_uint32, is_int32.
  change (2 ^ 8) with 256 in *; change (2 ^ 16) with 65536 in *;
    change (2 ^ 24) with 16777216 in *; change (2 ^ 31) with 2147483648 in *;
    change (2 ^ 32) with 4294967296 in *.
  repeat split; repeat case_decide; try lia; f_equal; lia.
Qed.

Lemma get32_value_witness :
  let b := [Byte.x00; Byte.x12; Byte.x34; Byte.x56; Byte.xf8] in
  getUint32_BE b 1 = Some 0x123456f8 /\ getUint32_LE b 1 = Some 0xf8563412 /\
  getInt32_LE b 1 = Some (0xf8563412 - 2 ^ 32).
Proof.
  intros b.
  destruct (get32_value b 1 Byte.x12 Byte.x34 Byte.x56 Byte.xf8
              eq_refl eq_refl eq_refl eq_refl) as ((HBE & _) & (HLE & _) & (HI & _)).
  split; [exact HBE | split; [exact HLE | exact HI]].
Defined.

Lemma digit_low32 (x k : Z) :
  k = 0 \/ k = 8 \/ k = 16 \/ k = 24 ->
  (uint32_cast x / 2 ^ k) mod 2 ^ 8 = (x / 2 ^ k) mod 2 ^ 8.
Proof.
  unfold uint32_cast. change (2 ^ 32) with 4294967296; change (2 ^ 8) with 256.
  intros [-> | [-> | [-> | ->]]].
  - change (2 ^ 0) with 1. Z.div_mod_to_equations. lia.
  - change (2 ^ 8) with 256. Z.div_mod_to_equations. lia.
  - change (2 ^ 16) with 65536. Z.div_mod_to_equations. lia.
  - change (2 ^ 24) with 16777216. Z.div_mod_to_equations. lia.
Qed.

Lemma mask_low32 (x k : Z) :
  k = 8 \/ k = 16 \/ k = 24 ->
  byte.of_Z (Z.land (uint32_cast x ≫ k) 255) = byte.of_Z (Z.land (x ≫ k) 255).
Proof.
  intros Hk. rewrite !byte_mask_digit by lia. rewrite digit_low32 by lia. reflexivity.
Qed.

Lemma mask_low32_0 (x : Z) :
  byte.of_Z (Z.land (uint32_cast x) 255) = byte.of_Z (Z.land x 255).
Proof.
  rewrite <- (Z.shiftr_0_r (uint32_cast x)), <- (Z.shiftr_0_r x).
  rewrite !byte_mask_digit by lia. rewrite digit_low32 by lia. reflexivity.
Qed.

Lemma putUint32_LE_low32 (x : Z) (b : list byte) (i : nat) :
  putUint32_LE (uint32_cast x) b i = putUint32_LE x b i.
Proof.
  unfold putUint32_LE.
  rewrite (mask_low32_0 x), !mask_low32 by lia. reflexivity.
Qed.

Lemma getInt32_LE_cast (b : list byte) (i : nat) :
  getInt32_LE b i = int32_cast <$> getUint32_LE b i.
Proof.
  destruct (b !! i) as [x0|] eqn:H0;
    [| unfold getInt32_LE, getUint32_LE, load; rewrite H0; reflexivity].
  destruct (b !! (i + 1)%nat) as [x1|] eqn:H1;
    [| unfold getInt32_LE, getUint32_LE, load; rewrite H0, H1; reflexivity].
  destruct (b !! (i + 2)%nat) as [x2|] eqn:H2;
    [| unfold getInt32_LE, getUint32_LE, load; rewrite H0, H1, H2; reflexivity].
  destruct (b !! (i + 3)%nat) as [x3|] eqn:H3;
    [| unfold getInt32_LE, getUint32_LE, load; rewrite H0, H1, H2, H3; reflexivity].
  destruct (get32_closed b i x0 x1 x2 x3 H0 H1 H2 H3) as (_ & (HLE & Hr) & (HI & _)).
  rewrite HI, HLE. cbn [fmap option_fmap option_map]. f_equal.
  symmetry. apply int32_cast_pattern. exact Hr.
Qed.

(** X2: the signed and the unsigned little-endian accessors agree on the
    bit pattern: getInt32_LE returns the value of getUint32_LE converted to
    [int32], and putInt32_LE stores for [x] the bytes that putUint32_LE
    stores for [x] converted to [uint32]; this holds for every array and
    index, the out-of-array ones included. *)
Theorem int32_LE_is_uint32_LE (x : Z) (b : list byte) (i : nat) :
  getInt32_LE b i = int32_cast <$> getUint32_LE b i /\
  putInt32_LE x b i = putUint32_LE (uint32_cast x) b i.
Proof.
  split; [apply getInt32_LE_cast |].
  rewrite putUint32_LE_low32. reflexivity.
Qed.

Lemma digits_of_sum32 (e0 e1 e2 e3 : Z) :
  0 <= e0 < 256 -> 0 <= e1 < 256 -> 0 <= e2 < 256 -> 0 <= e3 < 256 ->
  let n := e0 + e1 * 2 ^ 8 + e2 * 2 ^ 16 + e3 * 2 ^ 24 in
  n mod 2 ^ 8 = e0 /\ (n / 2 ^ 8) mod 2 ^ 8 = e1 /\
  (n / 2 ^ 16) mod 2 ^ 8 = e2 /\ (n / 2 ^ 24) mod 2 ^ 8 = e3.
Proof.
  intros H0 H1 H2 H3 n. subst n.
  change (2 ^ 8) with 256; change (2 ^ 16) with 65536; change (2 ^ 24) with 16777216.
  repeat split; Z.div_mod_to_equations; lia.
Qed.

Lemma putUint32_LE_of_bytes (b : list byte) (i : nat) (x0 x1 x2 x3 : byte) :
  b !! i = Some x0 -> b !! (i + 1)%nat = Some x1 ->
  b !! (i + 2)%nat = Some x2 -> b !! (i + 3)%nat = Some x3 ->
  putUint32_LE (byte.unsigned x0 + byte.unsigned x1 * 2 ^ 8
                + byte.unsigned x2 * 2 ^ 16 + byte.unsigned x3 * 2 ^ 24) b i = Some b.
Proof.
  intros H0 H1 H2 H3.
  assert (Hlen : (i + 4 <= length b)%nat) by (apply lookup_lt_Some in H3; lia).
  rewrite putUint32_LE_window by exact Hlen.
  destruct (digits_of_sum32 (byte.unsigned x0) (byte.unsigned x1) (byte.unsigned x2)
              (byte.unsigned x3)) as (-> & -> & -> & ->); try apply unsigned_byte_range.
  rewrite !byte.of_Z_unsigned. f_equal. symmetry. apply loads4; assumption.
Qed.

Lemma putUint32_BE_of_bytes (b : list byte) (i : nat) (x0 x1 x2 x3 : byte) :
  b !! i = Some x0 -> b !! (i + 1)%nat = Some x1 ->
  b !! (i + 2)%nat = Some x2 -> b !! (i + 3)%nat = Some x3 ->
  putUint32_BE (byte.unsigned x0 * 2 ^ 24 + byte.unsigned x1 * 2 ^ 16
                + byte.unsigned x2 * 2 ^ 8 + byte.unsigned x3) b i = Some b.
Proof.
  intros H0 H1 H2 H3.
  assert (Hlen : (i + 4 <= length b)%nat) by (apply lookup_lt_Some in H3; lia).
  rewrite putUint32_BE_window by exact Hlen.
  replace (byte.unsigned x0 * 2 ^ 24 + byte.unsigned x1 * 2 ^ 16
           + byte.unsigned x2 * 2 ^ 8 + byte.unsigned x3)
    with (byte.unsigned x3 + byte.unsigned x2 * 2 ^ 8 + byte.unsigned x1 * 2 ^ 16
          + byte.unsigned x0 * 2 ^ 24) by lia.
  destruct (digits_of_sum32 (byte.unsigned x3) (byte.unsigned x2) (byte.unsigned x1)
              (byte.unsigned x0)) as (-> & -> & -> & ->); try apply unsigned_byte_range.
  rewrite !byte.of_Z_unsigned. f_equal. symmetry. apply loads4; assumption.
Qed.

Lemma lookups4 (b : list byte) (i : nat) :
  (i + 4 <= length b)%nat ->
  exists x0 x1 x2 x3,
    b !! i = Some x0 /\ b !! (i + 1)%nat = Some x1 /\
    b !! (i + 2)%nat = Some x2 /\ b !! (i + 3)%nat = Some x3.
Proof.
  intros Hlen.
  destruct (lookup_lt_is_Some_2 b i) as [x0 H0]; [lia |].
  destruct (lookup_lt_is_Some_2 b (i + 1)) as [x1 H1]; [lia |].
  destruct (lookup_lt_is_Some_2 b (i + 2)) as [x2 H2]; [lia |].
  destruct (lookup_lt_is_Some_2 b (i + 3)) as [x3 H3]; [lia |].
  exists x0, x1, x2, x3. auto.
Qed.

Lemma write_back32 (b : list byte) (i : nat) :
  (i + 4 <= length b)%nat ->
  getUint32_BE b i ≫= (λ n, putUint32_BE n b i) = Some b /\
  getUint32_LE b i ≫= (λ n, putUint32_LE n b i) = Some b /\
  getInt32_LE b i ≫= (λ n, putInt32_LE n b i) = Some b.
Proof.
  intros Hlen.
  destruct (lookups4 b i Hlen) as (x0 & x1 & x2 & x3 & H0 & H1 & H2 & H3).
  pose proof (putUint32_LE_of_bytes b i x0 x1 x2 x3 H0 H1 H2 H3) as HputLE.
  destruct (get32_closed b i x0 x1 x2 x3 H0 H1 H2 H3) as ((HBE & _) & (HLE & Hr) & _).
  split; [| split].
  - rewrite HBE. cbn [mbind option_bind]. apply putUint32_BE_of_bytes; assumption.
  - rewrite HLE. cbn [mbind option_bind]. exact HputLE.
  - rewrite getInt32_LE_cast, HLE. cbn [fmap option_fmap option_map mbind option_bind].
    change (putInt32_LE ?n b i) with (putUint32_LE n b i).
    rewrite <- putUint32_LE_low32.
    replace (uint32_cast (int32_cast _)) with
      (byte.unsigned x0 + byte.unsigned x1 * 2 ^ 8 + byte.unsigned x2 * 2 ^ 16
       + byte.unsigned x3 * 2 ^ 24); [exact HputLE |].
    rewrite int32_cast_pattern by exact Hr. unfold uint32_cast, is_uint32 in *.
    change (2 ^ 31) with 2147483648 in *; change (2 ^ 32) with 4294967296 in *.
    case_decide.
    + rewrite Z.mod_small by lia. reflexivity.
    + match goal with |- ?le = (?le - _) mod _ =>
        replace (le - 4294967296) with (le + (-1) * 4294967296) by lia end.
      rewrite Z.mod_add by lia. rewrite Z.mod_small by lia. reflexivity.
Qed.

Lemma get64_closed (b : list byte) (i : nat) (x0 x1 x2 x3 x4 x5 x6 x7 : byte) :
  b !! i = Some x0 -> b !! (i + 1)%nat = Some x1 ->
  b !! (i + 2)%nat = Some x2 -> b !! (i + 3)%nat = Some x3 ->
  b !! (i + 4)%nat = Some x4 -> b !! (i + 5)%nat = Some x5 ->
  b !! (i + 6)%nat = Some x6 -> b !! (i + 7)%nat = Some x7 ->
  let u := byte.unsigned in
  let n := u x0 + u x1 * 2 ^ 8 + u x2 * 2 ^ 16 + u x3 * 2 ^ 24
           + u x4 * 2 ^ 32 + u x5 * 2 ^ 40 + u x6 * 2 ^ 48 + u x7 * 2 ^ 56 in
  getUint64_LE b i = Some n /\ is_uint64 n.
Proof.
  intros H0 H1 H2 H3 H4 H5 H6 H7 u n.
  pose proof (unsigned_byte_range x0) as R0. pose proof (unsigned_byte_range x1) as R1.
  pose proof (unsigned_byte_range x2) as R2. pose proof (unsigned_byte_range x3) as R3.
  pose proof (unsigned_byte_range x4) as R4. pose proof (unsigned_byte_range x5) as R5.
  pose proof (unsigned_byte_range x6) as R6. pose proof (unsigned_byte_range x7) as R7.
  unfold getUint64_LE, load.
  rewrite H0, H1, H2, H3, H4, H5, H6, H7. cbn [mbind option_bind].
  rewrite !shl_u64_byte by lia.
  rewrite lor_chain_LE64 by assumption.
  subst u n. cbv beta. split; [reflexivity |].
  unfold is_uint64.
  change (2 ^ 8) with 256; change (2 ^ 16) with 65536; change (2 ^ 24) with 16777216;
    change (2 ^ 32) with 4294967296; change (2 ^ 40) with 1099511627776;
    change (2 ^ 48) with 281474976710656; change (2 ^ 56) with 72057594037927936;
    change (2 ^ 64) with 18446744073709551616.
  lia.
Qed.

(** Dividing out the lowest digit of a sum of digits. *)
Lemma digit_step (e r : Z) :
  0 <= e < 256 -> (e + r * 2 ^ 8) mod 2 ^ 8 = e /\ (e + r * 2 ^ 8) / 2 ^ 8 = r.
Proof.
  intros He. change (2 ^ 8) with 256. split.
  - rewrite Z.mod_add by lia. apply Z.mod_small. exact He.
  - rewrite Z.div_add by lia. rewrite Z.div_small by exact He. lia.
Qed.

Lemma digits_of_sum64 (e0 e1 e2 e3 e4 e5 e6 e7 : Z) :
  0 <= e0 < 256 -> 0 <= e1 < 256 -> 0 <= e2 < 256 -> 0 <= e3 < 256 ->
  0 <= e4 < 256 -> 0 <= e5 < 256 -> 0 <= e6 < 256 -> 0 <= e7 < 256 ->
  let n := e0 + e1 * 2 ^ 8 + e2 * 2 ^ 16 + e3 * 2 ^ 24
           + e4 * 2 ^ 32 + e5 * 2 ^ 40 + e6 * 2 ^ 48 + e7 * 2 ^ 56 in
  n mod 2 ^ 8 = e0 /\ (n / 2 ^ 8) mod 2 ^ 8 = e1 /\
  (n / 2 ^ 16) mod 2 ^ 8 = e2 /\ (n / 2 ^ 24) mod 2 ^ 8 = e3 /\
  (n / 2 ^ 32) mod 2 ^ 8 = e4 /\ (n / 2 ^ 40) mod 2 ^ 8 = e5 /\
  (n / 2 ^ 48) mod 2 ^ 8 = e6 /\ (n / 2 ^ 56) mod 2 ^ 8 = e7.
Proof.
  intros H0 H1 H2 H3 H4 H5 H6 H7 n.
  set (r7 := e7).
  set (r6 := e6 + r7 * 2 ^ 8). set (r5 := e5 + r6 * 2 ^ 8).
  set (r4 := e4 + r5 * 2 ^ 8). set (r3 := e3 + r4 * 2 ^ 8).
  set (r2 := e2 + r3 * 2 ^ 8). set (r1 := e1 + r2 * 2 ^ 8).
  assert (En : n = e0 + r1 * 2 ^ 8) by (subst n r1 r2 r3 r4 r5 r6 r7; lia).
  destruct (digit_step e0 r1 H0) as [M0 D0].
  destruct (digit_step e1 r2 H1) as [M1 D1].
  destruct (digit_step e2 r3 H2) as [M2 D2].
  destruct (digit_step e3 r4 H3) as [M3 D3].
  destruct (digit_step e4 r5 H4) as [M4 D4].
  destruct (digit_step e5 r6 H5) as [M5 D5].
  destruct (digit_step e6 r7 H6) as [M6 D6].
  fold r1 in M1, D1. rewrite <- En in M0, D0.
  assert (Q1 : n / 2 ^ 8 = r1) by exact D0.
  assert (Q2 : n / 2 ^ 16 = r2).
  { change 16 with (8 + 8). rewrite <- div_pow2_step by lia. rewrite Q1. exact D1. }
  assert (Q3 : n / 2 ^ 24 = r3).
  { change 24 with (16 + 8). rewrite <- div_pow2_step by lia. rewrite Q2. exact D2. }
  assert (Q4 : n / 2 ^ 32 = r4).
  { change 32 with (24 + 8). rewrite <- div_pow2_step by lia. rewrite Q3. exact D3. }
  assert (Q5 : n / 2 ^ 40 = r5).
  { change 40 with (32 + 8). rewrite <- div_pow2_step by lia. rewrite Q4. exact D4. }
  assert (Q6 : n / 2 ^ 48 = r6).
  { change 48 with (40 + 8). rewrite <- div_pow2_step by lia. rewrite Q5. exact D5. }
  assert (Q7 : n / 2 ^ 56 = r7).
  { change 56 with (48 + 8). rewrite <- div_pow2_step by lia. rewrite Q6. exact D6. }
  rewrite Q1, Q2, Q3, Q4, Q5, Q6, Q7.
  repeat split; try assumption.
  subst r7. apply Z.mod_small. exact H7.
Qed.

Lemma loads8 (b : list byte) (i : nat) (x0 x1 x2 x3 x4 x5 x6 x7 : byte) :
  b !! i = Some x0 -> b !! (i + 1)%nat = Some x1 ->
  b !! (i + 2)%nat = Some x2 -> b !! (i + 3)%nat = Some x3 ->
  b !! (i + 4)%nat = Some x4 -> b !! (i + 5)%nat = Some x5 ->
  b !! (i + 6)%nat = Some x6 -> b !! (i + 7)%nat = Some x7 ->
  b = take i b ++ [x0; x1; x2; x3; x4; x5; x6; x7] ++ drop (i + 8) b.
Proof.
  intros H0 H1 H2 H3 H4 H5 H6 H7.
  rewrite <- (take_drop i b) at 1. f_equal.
  rewrite (drop_S b x0 i H0).
  replace (S i) with (i + 1)%nat by lia. rewrite (drop_S b x1 _ H1).
  replace (S (i + 1)) with (i + 2)%nat by lia. rewrite (drop_S b x2 _ H2).
  replace (S (i + 2)) with (i + 3)%nat by lia. rewrite (drop_S b x3 _ H3).
  replace (S (i + 3)) with (i + 4)%nat by lia. rewrite (drop_S b x4 _ H4).
  replace (S (i + 4)) with (i + 5)%nat by lia. rewrite (drop_S b x5 _ H5).
  replace (S (i + 5)) with (i + 6)%nat by lia. rewrite (drop_S b x6 _ H6).
  replace (S (i + 6)) with (i + 7)%nat by lia. rewrite (drop_S b x7 _ H7).
  replace (S (i + 7)) with (i + 8)%nat by lia. reflexivity.
Qed.

Lemma write_back64 (b : list byte) (i : nat) :
  (i + 8 <= length b)%nat ->
  getUint64_LE b i ≫= (λ n, putUint64_LE n b i) = Some b.
Proof.
  intros Hlen.
  destruct (lookups4 b i) as (x0 & x1 & x2 & x3 & H0 & H1 & H2 & H3); [lia |].
  destruct (lookups4 b (i + 4)) as (x4 & x5 & x6 & x7 & H4 & H5 & H6 & H7); [lia |].
  replace (i + 4 + 1)%nat with (i + 5)%nat in H5 by lia.
  replace (i + 4 + 2)%nat with (i + 6)%nat in H6 by lia.
  replace (i + 4 + 3)%nat with (i + 7)%nat in H7 by lia.
  destruct (get64_closed b i x0 x1 x2 x3 x4 x5 x6 x7 H0 H1 H2 H3 H4 H5 H6 H7) as [-> _].
  cbn [mbind option_bind].
  rewrite putUint64_LE_window by exact Hlen.
  destruct (digits_of_sum64 (byte.unsigned x0) (byte.unsigned x1) (byte.unsigned x2)
              (byte.unsigned x3) (byte.unsigned x4) (byte.unsigned x5) (byte.unsigned x6)
              (byte.unsigned x7))
    as (-> & -> & -> & -> & -> & -> & -> & ->); try apply unsigned_byte_range.
  rewrite !byte.of_Z_unsigned. f_equal. symmetry. apply loads8; assumption.
Qed.

(** X3: reading a value and writing it back at the same index leaves the
    array as it was, for getUint32_BE/putUint32_BE, getUint32_LE/putUint32_LE,
    getInt32_LE/putInt32_LE and getUint64_LE/putUint64_LE, whenever the bytes
    are inside the array. *)
Theorem get_put_write_back (b : list byte) (i : nat) :
  (i + 4 <= length b)%nat ->
  getUint32_BE b i ≫= (λ n, putUint32_BE n b i) = Some b /\
  getUint32_LE b i ≫= (λ n, putUint32_LE n b i) = Some b /\
  getInt32_LE b i ≫= (λ n, putInt32_LE n b i) = Some b /\
  ((i + 8 <= length b)%nat ->
   getUint64_LE b i ≫= (λ n, putUint64_LE n b i) = Some b).
Proof.
  intros Hlen. destruct (write_back32 b i Hlen) as (HBE & HLE & HI).
  repeat split; try assumption. apply write_back64.
Qed.

Lemma get_put_write_back_witness :
  let b := [Byte.x00; Byte.x12; Byte.x34; Byte.x56; Byte.xf8; Byte.x9a; Byte.xbc;
            Byte.xde; Byte.xf0; Byte.x11] in
  getUint32_BE b 1 ≫= (λ n, putUint32_BE n b 1) = Some b /\
  getUint32_LE b 1 ≫= (λ n, putUint32_LE n b 1) = Some b /\
  getInt32_LE b 1 ≫= (λ n, putInt32_LE n b 1) = Some b /\
  getUint64_LE b 1 ≫= (λ n, putUint64_LE n b 1) = Some b.
Proof.
  intros b.
  assert (H4 : (1 + 4 <= length b)%nat) by (simpl; lia).
  assert (H8 : (1 + 8 <= length b)%nat) by (simpl; lia).
  destruct (get_put_write_back b 1 H4) as (HBE & HLE & HI & H64).
  repeat split; auto.
Defined.

Lemma bswap32_range (x : Z) : is_uint32 (bswap32 x).
Proof.
  unfold is_uint32, bswap32.
  pose proof (digit_range x). pose proof (digit_range (x / 2 ^ 8)).
  pose proof (digit_range (x / 2 ^ 16)). pose proof (digit_range (x / 2 ^ 24)).
  change (2 ^ 16) with 65536 in *; change (2 ^ 24) with 16777216 in *;
    change (2 ^ 32) with 4294967296.
  lia.
Qed.

Lemma bswap32_involutive (x : Z) : is_uint32 x -> bswap32 (bswap32 x) = x.
Proof.
  intros Hx. unfold bswap32 at 1.
  destruct (digits_of_sum32 ((x / 2 ^ 24) mod 2 ^ 8) ((x / 2 ^ 16) mod 2 ^ 8)
              ((x / 2 ^ 8) mod 2 ^ 8) (x mod 2 ^ 8)) as (E0 & E1 & E2 & E3);
    try apply digit_range.
  replace (bswap32 x) with
    ((x / 2 ^ 24) mod 2 ^ 8 + (x / 2 ^ 16) mod 2 ^ 8 * 2 ^ 8
     + (x / 2 ^ 8) mod 2 ^ 8 * 2 ^ 16 + x mod 2 ^ 8 * 2 ^ 24)
    by (unfold bswap32; lia).
  rewrite E0, E1, E2, E3.
  pose proof (digits32 x Hx) as Ex. lia.
Qed.

Lemma cross_read (x : Z) (b : list byte) (i : nat) :
  (i + 4 <= length b)%nat ->
  putUint32_BE x b i ≫= (λ b', getUint32_LE b' i) = Some (bswap32 x) /\
  putUint32_LE x b i ≫= (λ b', getUint32_BE b' i) = Some (bswap32 x).
Proof.
  intros Hlen.
  rewrite putUint32_BE_window, putUint32_LE_window by exact Hlen.
  cbn [mbind option_bind]. split.
  - edestruct (load4_window b (drop (i + 4) b) i) as (H0 & H1 & H2 & H3); [lia |].
    destruct (get32_closed _ i _ _ _ _ H0 H1 H2 H3) as (_ & (-> & _) & _).
    rewrite !unsigned_digit. f_equal. unfold bswap32. lia.
  - edestruct (load4_window b (drop (i + 4) b) i) as (H0 & H1 & H2 & H3); [lia |].
    destruct (get32_closed _ i _ _ _ _ H0 H1 H2 H3) as ((-> & _) & _).
    rewrite !unsigned_digit. f_equal.
Qed.

(** X4: a 32-bit value written in one byte order and read back in the other
    comes out with its four bytes reversed; the reversed value is again a
    32-bit value, and reversing twice gives the value back. *)
Theorem cross_endian_is_byte_swap (x : Z) (b : list byte) (i : nat) :
  is_uint32 x -> (i + 4 <= length b)%nat ->
  putUint32_BE x b i ≫= (λ b', getUint32_LE b' i) = Some (bswap32 x) /\
  putUint32_LE x b i ≫= (λ b', getUint32_BE b' i) = Some (bswap32 x) /\
  is_uint32 (bswap32 x) /\ bswap32 (bswap32 x) = x.
Proof.
  intros Hx Hlen. destruct (cross_read x b i Hlen) as [H1 H2].
  repeat split; try assumption; try apply bswap32_range.
  apply bswap32_involutive. exact Hx.
Qed.

Lemma cross_endian_is_byte_swap_witness :
  let b := replicate 6 Byte.x00 in
  putUint32_BE 0x01020304 b 2 ≫= (λ b', getUint32_LE b' 2) = Some 0x04030201 /\
  putUint32_LE 0x01020304 b 2 ≫= (λ b', getUint32_BE b' 2) = Some 0x04030201.
Proof.
  intros b.
  assert (Hx : is_uint32 0x01020304) by (unfold is_uint32; lia).
  assert (Hlen : (2 + 4 <= length b)%nat) by (simpl; lia).
  destruct (cross_endian_is_byte_swap 0x01020304 b 2 Hx Hlen) as (H1 & H2 & _).
  split; [exact H1 | exact H2].
Defined.

(** X5: putUint64_LE stores the eight base-256 digits of [n], the least
    significant at [b[i]] and the most significant at [b[i+7]], and changes
    nothing else of the array; getUint64_LE returns the sum of the eight
    bytes at [i] weighted by their place, a 64-bit value. *)
Theorem uint64_LE_byte_order (n : Z) (b : list byte) (i : nat) :
  is_uint64 n -> (i + 8 <= length b)%nat ->
  let d k := (n / 2 ^ (8 * k)) mod 2 ^ 8 in
  n = d 0 + d 1 * 2 ^ 8 + d 2 * 2 ^ 16 + d 3 * 2 ^ 24
      + d 4 * 2 ^ 32 + d 5 * 2 ^ 40 + d 6 * 2 ^ 48 + d 7 * 2 ^ 56 /\
  putUint64_LE n b i =
    Some (take i b ++ (byte.of_Z <$> [d 0; d 1; d 2; d 3; d 4; d 5; d 6; d 7])
          ++ drop (i + 8) b) /\
  exists y, getUint64_LE b i = Some y /\ is_uint64 y /\
    y = foldr (λ x acc, byte.unsigned x + acc * 2 ^ 8) 0 (take 8 (drop i b)).
Proof.
  intros Hn Hlen d. subst d. cbv beta.
  change (8 * 0) with 0; change (8 * 1) with 8; change (8 * 2) with 16;
    change (8 * 3) with 24; change (8 * 4) with 32; change (8 * 5) with 40;
    change (8 * 6) with 48; change (8 * 7) with 56.
  change (2 ^ 0) with 1. rewrite Z.div_1_r.
  split; [apply digits64; exact Hn |].
  split; [apply putUint64_LE_window; exact Hlen |].
  destruct (lookups4 b i) as (x0 & x1 & x2 & x3 & H0 & H1 & H2 & H3); [lia |].
  destruct (lookups4 b (i + 4)) as (x4 & x5 & x6 & x7 & H4 & H5 & H6 & H7); [lia |].
  replace (i + 4 + 1)%nat with (i + 5)%nat in H5 by lia.
  replace (i + 4 + 2)%nat with (i + 6)%nat in H6 by lia.
  replace (i + 4 + 3)%nat with (i + 7)%nat in H7 by lia.
  destruct (get64_closed b i x0 x1 x2 x3 x4 x5 x6 x7 H0 H1 H2 H3 H4 H5 H6 H7) as [Hy Hr].
  eexists. split; [exact Hy |]. split; [exact Hr |].
  rewrite (loads8 b i x0 x1 x2 x3 x4 x5 x6 x7) at 1 by assumption.
  rewrite drop_app_length' by (rewrite length_take; lia).
  cbn [app take foldr]. rewrite take_0. cbn [foldr].
  change (2 ^ 8) with 256; change (2 ^ 16) with 65536; change (2 ^ 24) with 16777216;
    change (2 ^ 32) with 4294967296; change (2 ^ 40) with 1099511627776;
    change (2 ^ 48) with 281474976710656; change (2 ^ 56) with 72057594037927936.
  lia.
Qed.

Lemma uint64_LE_byte_order_witness :
  let b := replicate 10 Byte.xff in
  putUint64_LE 0x0102030405060708 b 1
  = Some [Byte.xff; Byte.x08; Byte.x07; Byte.x06; Byte.x05; Byte.x04; Byte.x03;
          Byte.x02; Byte.x01; Byte.xff].
Proof.
  intros b.
  assert (Hn : is_uint64 0x0102030405060708) by (unfold is_uint64; lia).
  assert (Hlen : (1 + 8 <= length b)%nat) by (simpl; lia).
  destruct (uint64_LE_byte_order 0x0102030405060708 b 1 Hn Hlen) as (_ & Hput & _).
  exact Hput.
Defined.

Lemma store_Some_inv (b b' : list byte) (i : nat) (v : byte) :
  store b i v = Some b' -> (i < length b)%nat /\ b' = <[i := v]> b.
Proof.
  unfold store. case_decide; [| discriminate]. intros [= <-]. auto.
Qed.

(** A write of [w] bytes that returns an array had the bytes inside. *)
Lemma store4_Some_inv (b b' : list byte) (i : nat) (x0 x1 x2 x3 : byte) :
  (b ← store b i x0; b ← store b (i + 1)%nat x1; b ← store b (i + 2)%nat x2;
   store b (i + 3)%nat x3) = Some b' ->
  (i + 4 <= length b)%nat.
Proof.
  intros H.
  destruct (store b i x0) as [b1|] eqn:E0; [| discriminate]. cbn [mbind option_bind] in H.
  destruct (store b1 (i + 1) x1) as [b2|] eqn:E1; [| discriminate].
  cbn [mbind option_bind] in H.
  destruct (store b2 (i + 2) x2) as [b3|] eqn:E2; [| discriminate].
  cbn [mbind option_bind] in H.
  apply store_Some_inv in E0 as [_ ->]. apply store_Some_inv in E1 as [_ ->].
  apply store_Some_inv in E2 as [_ ->]. apply store_Some_inv in H as [H _].
  rewrite !length_insert in H. lia.
Qed.

Lemma window_frame (b ws : list byte) (i : nat) :
  (i + length ws <= length b)%nat ->
  let b' := take i b ++ ws ++ drop (i + length ws) b in
  length b' = length b /\
  forall k, (k < i \/ i + length ws <= k)%nat -> b' !! k = b !! k.
Proof.
  intros Hlen b'. subst b'. split.
  - rewrite !length_app, length_take, length_drop. lia.
  - intros k [Hk | Hk].
    + rewrite lookup_app_l by (rewrite length_take; lia).
      apply lookup_take_lt. exact Hk.
    + rewrite lookup_app_r by (rewrite length_take; lia).
      rewrite lookup_app_r by (rewrite length_take; lia).
      rewrite lookup_drop, length_take. f_equal. lia.
Qed.

Lemma get32_same_bytes (b b' : list byte) (j : nat) :
  (forall k, (j <= k < j + 4)%nat -> b' !! k = b !! k) ->
  getUint32_BE b' j = getUint32_BE b j /\
  getUint32_LE b' j = getUint32_LE b j /\
  getInt32_LE b' j = getInt32_LE b j.
Proof.
  intros Hsame. unfold getUint32_BE, getUint32_LE, getInt32_LE, load.
  rewrite (Hsame j), (Hsame (j + 1)%nat), (Hsame (j + 2)%nat), (Hsame (j + 3)%nat) by lia.
  auto.
Qed.

Lemma put32_window_any (x : Z) (b b' : list byte) (i : nat) :
  putUint32_BE x b i = Some b' \/ putUint32_LE x b i = Some b' \/
  putInt32_LE x b i = Some b' ->
  (i + 4 <= length b)%nat /\
  exists ws, length ws = 4%nat /\ b' = take i b ++ ws ++ drop (i + 4) b.
Proof.
  intros [H | [H | H]].
  - pose proof (store4_Some_inv _ _ _ _ _ _ _ H) as Hlen. split; [exact Hlen |].
    rewrite putUint32_BE_window in H by exact Hlen. injection H as <-.
    match goal with
    | |- exists ws, _ /\ take _ _ ++ ?y0 :: ?y1 :: ?y2 :: ?y3 :: _ = _ =>
        exists [y0; y1; y2; y3]
    end.
    split; reflexivity.
  - pose proof (store4_Some_inv _ _ _ _ _ _ _ H) as Hlen. split; [exact Hlen |].
    rewrite putUint32_LE_window in H by exact Hlen. injection H as <-.
    match goal with
    | |- exists ws, _ /\ take _ _ ++ ?y0 :: ?y1 :: ?y2 :: ?y3 :: _ = _ =>
        exists [y0; y1; y2; y3]
    end.
    split; reflexivity.
  - pose proof (store4_Some_inv _ _ _ _ _ _ _ H) as Hlen. split; [exact Hlen |].
    change (putInt32_LE x b i) with (putUint32_LE x b i) in H.
    rewrite putUint32_LE_window in H by exact Hlen. injection H as <-.
    match goal with
    | |- exists ws, _ /\ take _ _ ++ ?y0 :: ?y1 :: ?y2 :: ?y3 :: _ = _ =>
        exists [y0; y1; y2; y3]
    end.
    split; reflexivity.
Qed.

(** X6: a 32-bit put that returns an array keeps the length of the array
    and every byte outside [b[i..i+3]], so that a 32-bit read at an index
    whose four bytes do not overlap the written ones returns what it
    returned before the put. *)
Theorem put32_frame (x : Z) (b b' : list byte) (i j : nat) :
  putUint32_BE x b i = Some b' \/ putUint32_LE x b i = Some b' \/
  putInt32_LE x b i = Some b' ->
  length b' = length b /\
  (forall k, (k < i \/ i + 4 <= k)%nat -> b' !! k = b !! k) /\
  ((j + 4 <= i \/ i + 4 <= j)%nat ->
   getUint32_BE b' j = getUint32_BE b j /\
   getUint32_LE b' j = getUint32_LE b j /\
   getInt32_LE b' j = getInt32_LE b j).
Proof.
  intros Hput.
  destruct (put32_window_any x b b' i Hput) as (Hlen & ws & Hws & ->).
  destruct (window_frame b ws i) as [Hl Hframe]; [lia |].
  rewrite Hws in Hl, Hframe.
  split; [exact Hl |]. split; [exact Hframe |].
  intros Hapart. apply get32_same_bytes.
  intros k Hk. apply Hframe. lia.
Qed.

Lemma put32_frame_witness :
  let b := [Byte.x01; Byte.x02; Byte.x03; Byte.x04; Byte.x00; Byte.x00; Byte.x00; Byte.x00] in
  let b' := [Byte.x01; Byte.x02; Byte.x03; Byte.x04; Byte.xef; Byte.xbe; Byte.xad; Byte.xde] in
  putUint32_LE 0xdeadbeef b 4 = Some b' /\
  length b' = length b /\ getUint32_BE b' 0 = getUint32_BE b 0.
Proof.
  intros b b'.
  assert (Hput : putUint32_LE 0xdeadbeef b 4 = Some b') by reflexivity.
  destruct (put32_frame 0xdeadbeef b b' 4 0 (or_intror (or_introl Hput))) as (Hl & _ & Hget).
  destruct Hget as (HBE & _); [lia |].
  split; [exact Hput | split; [exact Hl | exact HBE]].
Defined.

End EndianMore.

(** ** Further properties of MemoryView *)

Section MemoryViewMore.
Import Exception MemoryView.

(** On a view as large as [size_type] can express, [size() + 1] is 0. *)
Lemma size_cast_succ_max (size_bits z : Z) :
  is_size size_bits z -> ~ z + 1 < 2 ^ size_bits -> size_cast size_bits (z + 1) = 0.
Proof.
  unfold is_size, size_cast. intros Hz Hmax.
  replace (z + 1) with (2 ^ size_bits) by lia. apply Z.mod_same. lia.
Qed.

Lemma size_cast_range (size_bits z : Z) :
  0 < 2 ^ size_bits -> 0 <= size_cast size_bits z.
Proof. intros Hw. unfold size_cast. apply Z.mod_pos_bound. exact Hw. Qed.


(** X7: [dataAs<T>(offset)] returns the address [dataAddress() + offset]
    exactly when [offset < size()], [offset + sizeof(T) <= size()] and
    [size() + 1] does not wrap around; in every other case it throws the
    out-of-range exception.  On a view of the largest [size_type] value it
    throws for every offset. *)
Theorem dataAs_exact (size_bits sizeofT : Z) (v : t) (o : Z) :
  is_size size_bits (size v) -> is_size size_bits o -> is_size size_bits sizeofT ->
  dataAs size_bits sizeofT v o =
  if decide (o < size v /\ o + sizeofT <= size v /\ size v + 1 < 2 ^ size_bits)
  then Ok (dataAddress v + o) else Throw IndexOutOfRangeException.
Proof.
  intros Hv Ho Hs. case_decide as Hc.
  - unfold is_size in *. apply dataAs_in_range; lia.
  - destruct (decide (o + sizeofT > size v)) as [Hover | Hfit].
    { apply dataAs_throws; assumption. }
    destruct (decide (o < size v)) as [Hin | Hout].
    + unfold dataAs.
      rewrite (assertIndexInRange_ok o 0 (size v)) by (unfold is_size in *; lia).
      cbn [mbind checked_bind].
      rewrite size_cast_succ_max by (try assumption; lia).
      rewrite assertIndexInRange_throw; [reflexivity |].
      right. apply size_cast_range. unfold is_size in Hv. lia.
    + unfold dataAs. rewrite (assertIndexInRange_throw o 0 (size v)) by lia. reflexivity.
Qed.

Lemma dataAs_exact_witness :
  dataAs 64 12 {| dataAddress := 4096; size := 17 |} 5 = Ok 4101 /\
  dataAs 64 12 {| dataAddress := 4096; size := 17 |} 17 = Throw IndexOutOfRangeException /\
  dataAs 64 1 {| dataAddress := 4096; size := 2 ^ 64 - 1 |} 0 = Throw IndexOutOfRangeException.
Proof.
  split; [| split].
  - rewrite (dataAs_exact 64 12 {| dataAddress := 4096; size := 17 |} 5);
      try (unfold is_size; simpl; lia). reflexivity.
  - rewrite (dataAs_exact 64 12 {| dataAddress := 4096; size := 17 |} 17);
      try (unfold is_size; simpl; lia). reflexivity.
  - rewrite (dataAs_exact 64 1 {| dataAddress := 4096; size := 2 ^ 64 - 1 |} 0);
      try (unfold is_size; simpl; lia). reflexivity.
Defined.

(** X8: [construct<T>] runs the constructor, once and at [dataAddress()],
    and returns that address exactly when [sizeof(T) <= size()] and
    [size() + 1] does not wrap around; in every other case it throws the
    out-of-range exception and the constructor does not run. *)
Theorem construct_exact {W : Type} (size_bits sizeofT : Z) (ctor : Z -> W -> W)
    (v : t) (w : W) :
  is_size size_bits (size v) -> is_size size_bits sizeofT ->
  construct size_bits sizeofT ctor v w =
  if decide (sizeofT <= size v /\ size v + 1 < 2 ^ size_bits)
  then (Ok (dataAddress v), ctor (dataAddress v) w)
  else (Throw IndexOutOfRangeException, w).
Proof.
  intros Hv Hs. case_decide as Hc.
  - unfold is_size in *. apply construct_in_range; lia.
  - destruct (decide (sizeofT > size v)) as [Hover | Hfit].
    { apply construct_throws; assumption. }
    unfold construct.
    rewrite (size_cast_succ_max size_bits (size v)) by (try assumption; lia).
    rewrite assertIndexInRange_throw; [reflexivity |].
    right. apply size_cast_range. unfold is_size in Hv. lia.
Qed.

Lemma construct_exact_witness :
  construct 64 12 (λ p (live : list Z), p :: live) {| dataAddress := 4096; size := 12 |} []
    = (Ok 4096, [4096]) /\
  construct 64 12 (λ p (live : list Z), p :: live) {| dataAddress := 4096; size := 11 |} []
    = (Throw IndexOutOfRangeException, []).
Proof.
  split.
  - rewrite (construct_exact 64 12 _ {| dataAddress := 4096; size := 12 |});
      try (unfold is_size; simpl; lia). reflexivity.
  - rewrite (construct_exact 64 12 _ {| dataAddress := 4096; size := 11 |});
      try (unfold is_size; simpl; lia). reflexivity.
Defined.

End MemoryViewMore.

(** ** Further properties of WriteBuffer *)

Section WriteBufferMore.
Import Exception Cursor.

Abbreviation wb_inv :=
  (cursor_inv WriteBuffer.position WriteBuffer.limit WriteBuffer.capacity).

(** X9: while [0 <= position <= limit <= capacity], [remaining()] is
    [limit - position] without wrap-around and at most the capacity,
    [hasRemaining()] tells whether the position is below the limit, and
    after [clear], [flip] and [rewind] the remaining count is the capacity,
    the old position and the limit. *)
Theorem remaining_under_invariant (size_bits : Z) (b : WriteBuffer.t) :
  wb_inv b -> MemoryView.is_size size_bits (WriteBuffer.capacity b) ->
  WriteBuffer.remaining size_bits b = WriteBuffer.limit b - WriteBuffer.position b /\
  0 <= WriteBuffer.remaining size_bits b <= WriteBuffer.capacity b /\
  (WriteBuffer.hasRemaining size_bits b = true <->
   WriteBuffer.position b < WriteBuffer.limit b) /\
  WriteBuffer.remaining size_bits (WriteBuffer.clear b) = WriteBuffer.capacity b /\
  WriteBuffer.remaining size_bits (WriteBuffer.flip b) = WriteBuffer.position b /\
  WriteBuffer.remaining size_bits (WriteBuffer.rewind b) = WriteBuffer.limit b.
Proof.
  unfold cursor_inv, MemoryView.is_size. intros (H0 & Hpl & Hlc) Hcap.
  assert (Hrem : WriteBuffer.remaining size_bits b
                 = WriteBuffer.limit b - WriteBuffer.position b).
  { unfold WriteBuffer.remaining, MemoryView.size_cast. apply Z.mod_small. lia. }
  split; [exact Hrem |]. split; [lia |]. split.
  - unfold WriteBuffer.hasRemaining. rewrite bool_decide_eq_true, Hrem. lia.
  - assert (Hsc : forall z, 0 <= z <= WriteBuffer.capacity b ->
                      MemoryView.size_cast size_bits (z - 0) = z).
    { intros z Hz. unfold MemoryView.size_cast. rewrite Z.sub_0_r.
      apply Z.mod_small. lia. }
    split; [| split].
    + exact (Hsc (WriteBuffer.capacity b) ltac:(lia)).
    + exact (Hsc (WriteBuffer.position b) ltac:(lia)).
    + exact (Hsc (WriteBuffer.limit b) ltac:(lia)).
Qed.

Lemma remaining_under_invariant_witness :
  let b := {| WriteBuffer._position := 3; WriteBuffer._limit := 7;
              WriteBuffer._storage :=
                {| MemoryBuffer.view := {| MemoryView.dataAddress := 4096;
                                           MemoryView.size := 10 |};
                   MemoryBuffer.owned := false |} |} in
  WriteBuffer.remaining 64 b = 4 /\ WriteBuffer.hasRemaining 64 b = true /\
  WriteBuffer.remaining 64 (WriteBuffer.flip b) = 3.
Proof.
  intros b.
  destruct (remaining_under_invariant 64 b) as (Hr & _ & Hh & _ & Hf & _).
  - unfold cursor_inv. cbn. lia.
  - unfold MemoryView.is_size. cbn. lia.
  - split; [exact Hr |]. split; [apply Hh; cbn; lia | exact Hf].
Defined.

(** X10: [remaining()] subtracts in [size_type]: on a buffer whose position
    is beyond its limit the difference wraps around to a positive count and
    [hasRemaining()] is true. *)
Theorem remaining_wraps (size_bits : Z) (b : WriteBuffer.t) :
  MemoryView.is_size size_bits (WriteBuffer.position b) ->
  MemoryView.is_size size_bits (WriteBuffer.limit b) ->
  WriteBuffer.limit b < WriteBuffer.position b ->
  WriteBuffer.remaining size_bits b
    = 2 ^ size_bits - (WriteBuffer.position b - WriteBuffer.limit b) /\
  WriteBuffer.hasRemaining size_bits b = true.
Proof.
  unfold MemoryView.is_size. intros Hp Hl Hlt.
  assert (Hrem : WriteBuffer.remaining size_bits b
                 = 2 ^ size_bits - (WriteBuffer.position b - WriteBuffer.limit b)).
  { unfold WriteBuffer.remaining, MemoryView.size_cast.
    replace (WriteBuffer.limit b - WriteBuffer.position b)
      with (2 ^ size_bits - (WriteBuffer.position b - WriteBuffer.limit b)
            + (-1) * 2 ^ size_bits) by lia.
    rewrite Z.mod_add by lia. apply Z.mod_small. lia. }
  split; [exact Hrem |].
  unfold WriteBuffer.hasRemaining. rewrite bool_decide_eq_true, Hrem. lia.
Qed.

Lemma remaining_wraps_witness :
  let b := {| WriteBuffer._position := 7; WriteBuffer._limit := 3;
              WriteBuffer._storage :=
                {| MemoryBuffer.view := {| MemoryView.dataAddress := 4096;
                                           MemoryView.size := 10 |};
                   MemoryBuffer.owned := false |} |} in
  WriteBuffer.remaining 64 b = 2 ^ 64 - 4 /\ WriteBuffer.hasRemaining 64 b = true.
Proof.
  intros b. apply (remaining_wraps 64 b); unfold MemoryView.is_size; cbn; lia.
Defined.

(** X11: while [0 <= position <= limit <= capacity], [viewWritten()] and
    [viewRemaining()] do not throw: the first is the [position] bytes from
    the start of the storage, the second the [limit - position] bytes that
    follow them, so the two views are adjacent and end inside the storage.
    With the position beyond the limit [viewRemaining()] throws the
    out-of-range exception. *)
Theorem views_partition (b : WriteBuffer.t) :
  let mv := MemoryBuffer.view (WriteBuffer._storage b) in
  (wb_inv b ->
   WriteBuffer.viewWritten b
     = Ok {| MemoryView.dataAddress := MemoryView.dataAddress mv;
             MemoryView.size := WriteBuffer.position b |} /\
   WriteBuffer.viewRemaining b
     = Ok {| MemoryView.dataAddress := MemoryView.dataAddress mv + WriteBuffer.position b;
             MemoryView.size := WriteBuffer.limit b - WriteBuffer.position b |} /\
   MemoryView.dataAddress mv + WriteBuffer.position b
     + (WriteBuffer.limit b - WriteBuffer.position b)
     <= MemoryView.dataAddress mv + MemoryView.size mv) /\
  (WriteBuffer.limit b < WriteBuffer.position b ->
   WriteBuffer.viewRemaining b = Throw IndexOutOfRangeException).
Proof.
  intros mv. subst mv. unfold cursor_inv.
  destruct b as [p l [[a n] own]].
  unfold WriteBuffer.viewWritten, WriteBuffer.viewRemaining, MemoryView.slice,
    WriteBuffer.position, WriteBuffer.limit, WriteBuffer.capacity, MemoryBuffer.size.
  cbn. split.
  - intros (H0 & Hpl & Hlc).
    rewrite !decide_False by lia. rewrite Z.add_0_r, Z.sub_0_r.
    split; [reflexivity |]. split; [reflexivity | lia].
  - intros Hlt. rewrite decide_True by lia. reflexivity.
Qed.

Lemma views_partition_witness :
  let b := {| WriteBuffer._position := 3; WriteBuffer._limit := 7;
              WriteBuffer._storage :=
                {| MemoryBuffer.view := {| MemoryView.dataAddress := 4096;
                                           MemoryView.size := 10 |};
                   MemoryBuffer.owned := false |} |} in
  WriteBuffer.viewWritten b
    = Ok {| MemoryView.dataAddress := 4096; MemoryView.size := 3 |} /\
  WriteBuffer.viewRemaining b
    = Ok {| MemoryView.dataAddress := 4099; MemoryView.size := 4 |}.
Proof.
  intros b.
  destruct (views_partition b) as [Hin _].
  destruct Hin as (Hw & Hr & _); [unfold cursor_inv; cbn; lia |].
  split; [exact Hw | exact Hr].
Defined.

Lemma apply_op_inv (b : WriteBuffer.t) (op : WriteBuffer.Op) :
  wb_inv b ->
  wb_inv (WriteBuffer.apply_op b op) /\
  WriteBuffer._storage (WriteBuffer.apply_op b op) = WriteBuffer._storage b /\
  WriteBuffer.position (WriteBuffer.apply_op b op) = 0.
Proof.
  unfold cursor_inv. intros (H0 & Hpl & Hlc).
  destruct b as [p l st]. destruct op;
    unfold WriteBuffer.position, WriteBuffer.limit, WriteBuffer.capacity in *;
    cbn in *; repeat split; unfold WriteBuffer.capacity; cbn; lia.
Qed.

Lemma run_ops_inv (ops : list WriteBuffer.Op) (b : WriteBuffer.t) :
  wb_inv b ->
  wb_inv (WriteBuffer.run_ops ops b) /\
  WriteBuffer._storage (WriteBuffer.run_ops ops b) = WriteBuffer._storage b /\
  (ops <> [] -> WriteBuffer.position (WriteBuffer.run_ops ops b) = 0).
Proof.
  revert b. induction ops as [|op ops IH]; intros b Hinv.
  - cbn. split; [exact Hinv |]. split; [reflexivity | congruence].
  - destruct (apply_op_inv b op Hinv) as (Hinv1 & Hst1 & Hpos1).
    destruct (IH (WriteBuffer.apply_op b op) Hinv1) as (Hinv2 & Hst2 & Hpos2).
    unfold WriteBuffer.run_ops in *. cbn [fold_left].
    split; [exact Hinv2 |]. split; [rewrite Hst2; exact Hst1 |].
    intros _. destruct ops as [|op' ops'].
    + exact Hpos1.
    + apply Hpos2. discriminate.
Qed.

(** X12: a WriteBuffer made from a view, from a borrowed or from an owned
    MemoryBuffer starts with position 0 and limit equal to its capacity,
    which is the size of what it was made from, and over a size of at least
    0 it satisfies [0 <= position <= limit <= capacity]; from any buffer
    that satisfies it, every run of [rewind], [clear] and [flip] keeps that
    invariant, the capacity and the storage, and a run of at least one of
    them ends with position 0. *)
Theorem lifecycle_runs_keep_invariant (ops : list WriteBuffer.Op) (b : WriteBuffer.t)
    (memView : MemoryView.t) (buffer : MemoryBuffer.t) :
  (WriteBuffer.position (WriteBuffer.of_view memView) = 0 /\
   WriteBuffer.limit (WriteBuffer.of_view memView)
     = WriteBuffer.capacity (WriteBuffer.of_view memView) /\
   WriteBuffer.capacity (WriteBuffer.of_view memView) = MemoryView.size memView /\
   (0 <= MemoryView.size memView -> wb_inv (WriteBuffer.of_view memView))) /\
  (WriteBuffer.position (WriteBuffer.of_buffer buffer) = 0 /\
   WriteBuffer.limit (WriteBuffer.of_buffer buffer)
     = WriteBuffer.capacity (WriteBuffer.of_buffer buffer) /\
   WriteBuffer.capacity (WriteBuffer.of_buffer buffer) = MemoryBuffer.size buffer /\
   WriteBuffer.position (WriteBuffer.of_buffer_ref buffer) = 0 /\
   WriteBuffer.limit (WriteBuffer.of_buffer_ref buffer)
     = WriteBuffer.capacity (WriteBuffer.of_buffer_ref buffer) /\
   WriteBuffer.capacity (WriteBuffer.of_buffer_ref buffer) = MemoryBuffer.size buffer /\
   (0 <= MemoryBuffer.size buffer ->
    wb_inv (WriteBuffer.of_buffer buffer) /\ wb_inv (WriteBuffer.of_buffer_ref buffer))) /\
  (wb_inv b ->
   wb_inv (WriteBuffer.run_ops ops b) /\
   WriteBuffer.capacity (WriteBuffer.run_ops ops b) = WriteBuffer.capacity b /\
   WriteBuffer._storage (WriteBuffer.run_ops ops b) = WriteBuffer._storage b /\
   (ops <> [] -> WriteBuffer.position (WriteBuffer.run_ops ops b) = 0)).
Proof.
  split; [| split].
  - unfold cursor_inv, WriteBuffer.of_view, WriteBuffer.position,
      WriteBuffer.limit, WriteBuffer.capacity, MemoryBuffer.size. cbn.
    split; [reflexivity |]. split; [reflexivity |]. split; [reflexivity |]. lia.
  - unfold cursor_inv, WriteBuffer.of_buffer, WriteBuffer.of_buffer_ref,
      WriteBuffer.position, WriteBuffer.limit, WriteBuffer.capacity, MemoryBuffer.size.
    cbn. repeat (split; [reflexivity |]). lia.
  - intros Hinv. destruct (run_ops_inv ops b Hinv) as (H1 & H2 & H3).
    split; [exact H1 |]. split; [| split; [exact H2 | exact H3]].
    unfold WriteBuffer.capacity. rewrite H2. reflexivity.
Qed.

Lemma lifecycle_runs_keep_invariant_witness :
  let mv := {| MemoryView.dataAddress := 4096; MemoryView.size := 10 |} in
  let ops := [WriteBuffer.Flip; WriteBuffer.Clear; WriteBuffer.Rewind; WriteBuffer.Flip] in
  (WriteBuffer.position (WriteBuffer.of_view mv) = 0 /\
   WriteBuffer.limit (WriteBuffer.of_view mv) = 10 /\
   WriteBuffer.capacity (WriteBuffer.of_view mv) = 10) /\
  wb_inv (WriteBuffer.run_ops ops (WriteBuffer.of_view mv)) /\
  WriteBuffer.capacity (WriteBuffer.run_ops ops (WriteBuffer.of_view mv)) = 10 /\
  WriteBuffer.position (WriteBuffer.run_ops ops (WriteBuffer.of_view mv)) = 0.
Proof.
  intros mv ops.
  destruct (lifecycle_runs_keep_invariant ops (WriteBuffer.of_view mv) mv
              {| MemoryBuffer.view := mv; MemoryBuffer.owned := true |})
    as ((Hpos & Hlim & Hcap & Hnew) & _ & Hrun).
  destruct Hrun as (Hinv & Hcap' & _ & Hzero); [apply Hnew; cbn; lia |].
  split; [split; [exact Hpos | split; [rewrite Hlim; exact Hcap | exact Hcap]] |].
  split; [exact Hinv |]. split; [rewrite Hcap'; exact Hcap |].
  apply Hzero. discriminate.
Defined.

End WriteBufferMore.

(** ** Further properties of Optional *)

Section OptionalMore.
Import Exception Optional.

(** X13: [swap] exchanges the two Optionals in each of its four cases, so
    the move-assignment, which is [swap], hands its source what the
    destination held; assigning [none] disengages and assigning a value
    engages with that value, whatever was held before. *)
Theorem optional_swap_exchanges {T : Type} (a b : Optional.t T) (x : T) :
  swap a b = (b, a) /\
  move_assign a b = (b, a) /\
  assign_none a = none /\
  assign_value x a = some x.
Proof.
  unfold move_assign, assign_none, assign_value.
  destruct a as [|xa], b as [|xb]; cbn; repeat split.
Qed.

(** X14: with an [operator==] of [T] that holds exactly for equal values,
    [operator==] on Optionals holds exactly for equal Optionals, and the
    comparison with [none] holds exactly for the empty one; whatever the
    [operator==] of [T] is, an empty Optional and an engaged one are not
    equal, and an Optional compared with itself as one object is. *)
Theorem optional_equals_decides {T : Type} (eqT : T -> T -> bool) (same_object : bool)
    (a b : Optional.t T) :
  (forall x y, eqT x y = true <-> x = y) ->
  (same_object = true -> a = b) ->
  (equals eqT same_object a b = true <-> a = b) /\
  (equals_none a = true <-> a = none) /\
  (forall (e : T -> T -> bool) y,
     equals e false none (some y) = false /\ equals e false (some y) none = false) /\
  (forall (e : T -> T -> bool), equals e true a a = true).
Proof.
  intros HeqT Hsame. split; [| split; [| split]].
  - unfold equals. destruct same_object.
    + split; [intros _; apply Hsame; reflexivity | reflexivity].
    + destruct a as [|x], b as [|y]; cbn.
      * split; reflexivity.
      * split; discriminate.
      * split; discriminate.
      * rewrite HeqT. split; [intros -> | intros [= ->]]; reflexivity.
  - unfold equals_none. destruct a; cbn; split; try reflexivity; discriminate.
  - intros e y. split; reflexivity.
  - intros e. reflexivity.
Qed.

Lemma optional_equals_decides_witness :
  equals Z.eqb false (some 3) (some 3) = true /\
  (equals Z.eqb false (some 3) (some 4) = true <-> some 3 = some 4).
Proof.
  split.
  - apply (optional_equals_decides Z.eqb false (some 3) (some 3));
      [apply Z.eqb_eq | discriminate | reflexivity].
  - apply (optional_equals_decides Z.eqb false (some 3) (some 4));
      [apply Z.eqb_eq | discriminate].
Defined.

(** X15: [filter] on an empty Optional returns the empty one without
    invoking the predicate; on any Optional the result holds [x] exactly when
    the Optional held [x] and the predicate returned true on it, so the
    result is the Optional itself or the empty one; with a predicate that
    has no effects, filtering twice is filtering once. *)
Theorem filter_keeps_or_empties {S T : Type} (p : Callable S T bool) (h : T -> bool)
    (o : Optional.t T) (s : S) (log : list T) :
  (filter p none s = (none, s) /\
   filter (logged p) none (log, s) = (none, (log, s))) /\
  (forall x, (filter p o s).1 = some x <-> o = some x /\ (p x s).1 = true) /\
  ((filter p o s).1 = o \/ (filter p o s).1 = none) /\
  filter (pure h) (filter (pure h) o s).1 s = filter (pure h) o s.
Proof.
  split; [split; reflexivity |]. split; [| split].
  - intros x. destruct o as [|y]; cbn.
    + split; [discriminate | intros [H _]; discriminate H].
    + destruct (p y s) as [keep s'] eqn:E. destruct keep; cbn.
      * split.
        -- intros [= ->]. rewrite E. auto.
        -- intros [[= ->] _]. reflexivity.
      * split; [discriminate |]. intros [[= ->] Hp]. rewrite E in Hp. discriminate Hp.
  - destruct o as [|y]; cbn; [left; reflexivity |].
    destruct (p y s) as [keep s']. destruct keep; cbn; auto.
  - destruct o as [|y]; cbn; [reflexivity |].
    unfold pure. destruct (h y) eqn:E; cbn; [rewrite E |]; reflexivity.
Qed.

(** X16: [flatMap] with the unit [Optional(x)] and callables with effects is
    a monad: mapping the unit returns the Optional and the state as they
    were, and two chained [flatMap]s are one [flatMap] with the chained
    callable, the state passing through the callables in the same order. *)
Theorem flatMap_monad_laws {S T U V : Type}
    (f : Callable S T (Optional.t U)) (g : Callable S U (Optional.t V))
    (o : Optional.t T) (s : S) :
  flatMap (λ x s, (some x, s)) o s = (o, s) /\
  (let (o1, s1) := flatMap f o s in flatMap g o1 s1)
  = flatMap (λ x s, let (o1, s1) := f x s in flatMap g o1 s1) o s.
Proof.
  split.
  - destruct o; reflexivity.
  - destruct o as [|x]; cbn; [reflexivity |]. destruct (f x s); reflexivity.
Qed.

(** X17: [map] keeps identities and composition: mapping the identity
    returns the Optional as it was, two chained [map]s are one [map] with the
    composed callable, [map] is [flatMap] with the result wrapped in an
    Optional, and the overload that passes the payload by reference agrees
    with the const one, leaving the Optional as it was, when the callable
    does not assign to its argument. *)
Theorem map_functor_laws {S T U V : Type}
    (f : Callable S T U) (g : Callable S U V) (o : Optional.t T) (s : S) :
  map_const (pure id) o s = (o, s) /\
  (let (o1, s1) := map_const f o s in map_const g o1 s1)
  = map_const (λ x s, let (u, s1) := f x s in g u s1) o s /\
  map_const f o s = flatMap (λ x s, let (u, s1) := f x s in (some u, s1)) o s /\
  map (λ x s, let (u, s1) := f x s in ((u, x), s1)) o s
  = (let (r, s1) := map_const f o s in ((r, o), s1)).
Proof.
  destruct o as [|x]; cbn; [repeat split |].
  destruct (f x s) as [u s1]. cbn. destruct (g u s1) as [v s2]. repeat split.
Qed.

End OptionalMore.
